(** * Verification of emscripten's src/library_addfunction.js

    A shallow embedding of the dynamic function-table manager:
    [uleb128Encode], [sigToWasmTypes], the byte synthesis of
    [convertJsFunctionToWasm], [getEmptyTableSlot], [updateTableMap],
    [addFunction] and [removeFunction].

    Build-time settings ([#if ASSERTIONS], [#if MEMORY64]) are explicit
    parameters.  JS arrays of numbers are [list (option Z)], where [None] is
    [undefined] (what [typeCodes[c]] yields for an unknown character). *)

From Stdlib Require Import ZArith Lia Ascii String.
From stdpp Require Import base gmap list strings.

Open Scope Z_scope.

(** ** Errors and outcomes *)

(** The values a JS [throw] can carry in this library. *)
Inductive js_error :=
| RangeError
| TypeError
| CompileError
| AssertionError (msg : string)
| ThrownString (s : string).

(** The result of a computation that may throw. *)
Inductive outcome (A : Type) :=
| Ret (a : A)
| Throw (e : js_error).
Arguments Ret {A} a.
Arguments Throw {A} e.

Definition obind {A B} (m : outcome A) (k : A -> outcome B) : outcome B :=
  match m with Ret a => k a | Throw e => Throw e end.

Notation "x <-? m ;; k" := (obind m (fun x => k))
  (at level 100, m at next level, right associativity).

(** [assert(cond, msg)] of an ASSERTIONS build: checked only when the build
    level is non-zero. *)
Definition js_assert (ASSERTIONS : nat) (cond : bool) (msg : string)
  : outcome unit :=
  if (negb (Nat.eqb ASSERTIONS 0) && negb cond)%bool
  then Throw (AssertionError msg) else Ret tt.

(** ** [$uleb128Encode] *)

(** ToInt32 of a JS number, applied by the bitwise operators. *)
Definition toInt32 (z : Z) : Z :=
  let w := z mod 2 ^ 32 in if w >=? 2 ^ 31 then w - 2 ^ 32 else w.

(** [n] is a non-negative array length, so [n % 128] is [Z.rem], equal to
    [Z.modulo] here. *)
Definition uleb128Encode (ASSERTIONS : nat) (n : Z) (target : list (option Z))
  : outcome (list (option Z)) :=
  _ <-? js_assert ASSERTIONS (n <? 16384) "" ;;
  if n <? 128 then Ret (target ++ [Some n])
  else Ret (target ++ [Some (Z.lor (toInt32 (n mod 128)) 128);
                       Some (Z.shiftr (toInt32 n) 7)]).

(** The encoding the spec describes: 7 bits per byte, least-significant
    group first, bit 7 set on every byte but the last. *)
Fixpoint uleb128_groups (fuel : nat) (n : Z) : list Z :=
  match fuel with
  | O => []
  | S f => if n <? 128 then [n]
           else (n mod 128 + 128) :: uleb128_groups f (n / 128)
  end.

Definition uleb128_spec (n : Z) : list Z :=
  uleb128_groups (S (Z.to_nat (Z.log2 n))) n.

(** ** [$sigToWasmTypes] *)

Inductive wasm_type := I32 | I64 | F32 | F64.

#[global] Instance wasm_type_eq_dec : EqDecision wasm_type.
Proof. solve_decision. Defined.

(** The [typeNames] object; [None] is the [undefined] of a missing key. *)
Definition typeNames (MEMORY64 : bool) (c : ascii) : option wasm_type :=
  if decide (c = "i"%char) then Some I32
  else if decide (c = "j"%char) then Some I64
  else if decide (c = "f"%char) then Some F32
  else if decide (c = "d"%char) then Some F64
  else if decide (c = "p"%char) then Some (if MEMORY64 then I64 else I32)
  else None.

Record wasm_sig_type := {
  parameters : list (option wasm_type);
  results : list (option wasm_type)
}.

(** The loop [for (var i = 1; i < sig.length; ++i)] over the characters
    after the first, pushing onto [parameters]. *)
Fixpoint sig_params_loop (MEMORY64 : bool) (ASSERTIONS : nat) (rest : string)
  (acc : list (option wasm_type)) : outcome (list (option wasm_type)) :=
  match rest with
  | EmptyString => Ret acc
  | String c rest' =>
      _ <-? js_assert ASSERTIONS (bool_decide (is_Some (typeNames MEMORY64 c)))
              ("invalid signature char: " +:+ String c EmptyString) ;;
      sig_params_loop MEMORY64 ASSERTIONS rest' (acc ++ [typeNames MEMORY64 c])
  end.

(** [sig[0] == 'v']: on the empty string [sig[0]] is [undefined], which is
    not ['v'], and [typeNames[undefined]] is [undefined]. *)
Definition sigToWasmTypes (MEMORY64 : bool) (ASSERTIONS : nat) (sig : string)
  : outcome wasm_sig_type :=
  let res := match sig with
             | EmptyString => [None]
             | String c _ => if decide (c = "v"%char) then []
                             else [typeNames MEMORY64 c]
             end in
  let rest := match sig with EmptyString => EmptyString | String _ r => r end in
  ps <-? sig_params_loop MEMORY64 ASSERTIONS rest [] ;;
  Ret {| parameters := ps; results := res |}.

(** A signature every character of which is in the tag set: the first is
    ['v'] or a [typeNames] key, the others are [typeNames] keys. *)
Definition valid_sig (MEMORY64 : bool) (sig : string) : bool :=
  match sig with
  | EmptyString => false
  | String c rest =>
      (bool_decide (c = "v"%char) || bool_decide (is_Some (typeNames MEMORY64 c)))
      && forallb (fun x => bool_decide (is_Some (typeNames MEMORY64 x)))
                 (list_ascii_of_string rest)
  end%bool.

(** ** The fallback module of [$convertJsFunctionToWasm] *)

(** The [typeCodes] object. *)
Definition typeCodes (MEMORY64 : bool) (c : ascii) : option Z :=
  if decide (c = "i"%char) then Some 0x7f
  else if decide (c = "p"%char) then Some (if MEMORY64 then 0x7e else 0x7f)
  else if decide (c = "j"%char) then Some 0x7e
  else if decide (c = "f"%char) then Some 0x7d
  else if decide (c = "d"%char) then Some 0x7c
  else None.

(** [typeCodes[sigRet]] with [sigRet] a string of length at most one. *)
Definition typeCodesStr (MEMORY64 : bool) (s : string) : option Z :=
  match s with
  | String c EmptyString => typeCodes MEMORY64 c
  | _ => None
  end.

Fixpoint push_param_codes (MEMORY64 : bool) (ASSERTIONS : nat) (sigParam : string)
  (body : list (option Z)) : outcome (list (option Z)) :=
  match sigParam with
  | EmptyString => Ret body
  | String c rest =>
      _ <-? js_assert ASSERTIONS (bool_decide (is_Some (typeCodes MEMORY64 c)))
              ("invalid signature char: " +:+ String c EmptyString) ;;
      push_param_codes MEMORY64 ASSERTIONS rest (body ++ [typeCodes MEMORY64 c])
  end.

Definition sig_slice1 (sig : string) : string :=
  match sig with EmptyString => EmptyString | String _ r => r end.

(** The JS array [bytes] built on the path without [WebAssembly.Function]. *)
Definition fallback_bytes (MEMORY64 : bool) (ASSERTIONS : nat) (sig : string)
  : outcome (list (option Z)) :=
  let typeSectionBody := [Some 0x01; Some 0x60] in
  let sigRet := substring 0 1 sig in
  let sigParam := sig_slice1 sig in
  body <-? uleb128Encode ASSERTIONS (Z.of_nat (String.length sigParam)) typeSectionBody ;;
  body <-? push_param_codes MEMORY64 ASSERTIONS sigParam body ;;
  let body := if decide (sigRet = "v") then body ++ [Some 0x00]
              else body ++ [Some 0x01; typeCodesStr MEMORY64 sigRet] in
  let bytes := map Some [0x00; 0x61; 0x73; 0x6d; 0x01; 0x00; 0x00; 0x00; 0x01] in
  bytes <-? uleb128Encode ASSERTIONS (Z.of_nat (length body)) bytes ;;
  let bytes := bytes ++ body in
  Ret (bytes ++ map Some [0x02; 0x07; 0x01; 0x01; 0x65; 0x01; 0x66; 0x00; 0x00;
                          0x07; 0x05; 0x01; 0x01; 0x66; 0x00; 0x00]).

(** [new Uint8Array(bytes)]: ToUint8 of each element, [undefined] is 0. *)
Definition to_uint8 (bytes : list (option Z)) : list Z :=
  map (fun o => match o with Some z => z mod 256 | None => 0 end) bytes.

Definition module_bytes (MEMORY64 : bool) (ASSERTIONS : nat) (sig : string)
  : outcome (list Z) :=
  b <-? fallback_bytes MEMORY64 ASSERTIONS sig ;; Ret (to_uint8 b).

(** The wire format as the spec words it. *)
Definition spec_type_code (MEMORY64 : bool) (c : ascii) : Z :=
  if decide (c = "i"%char) then 0x7F
  else if decide (c = "j"%char) then 0x7E
  else if decide (c = "f"%char) then 0x7D
  else if decide (c = "d"%char) then 0x7C
  else if MEMORY64 then 0x7E else 0x7F.

Definition spec_type_body (MEMORY64 : bool) (c : ascii) (params : string) : list Z :=
  [0x01; 0x60] ++ uleb128_spec (Z.of_nat (String.length params))
  ++ map (spec_type_code MEMORY64) (list_ascii_of_string params)
  ++ (if decide (c = "v"%char) then [0x00] else [0x01; spec_type_code MEMORY64 c]).

Definition spec_module_bytes (MEMORY64 : bool) (c : ascii) (params : string) : list Z :=
  let body := spec_type_body MEMORY64 c params in
  [0x00; 0x61; 0x73; 0x6D] ++ [0x01; 0x00; 0x00; 0x00]
  ++ [0x01] ++ uleb128_spec (Z.of_nat (length body)) ++ body
  ++ [0x02; 0x07; 0x01; 0x01; 0x65; 0x01; 0x66; 0x00; 0x00]
  ++ [0x07; 0x05; 0x01; 0x01; 0x66; 0x00; 0x00].

(** ** The registry: table, free list and [functionsInTableMap] *)

(** Callables as JS objects, compared by identity.  [JsFunc] is a plain JS
    function, which [Table.set] rejects; [WasmFunc] an exported wasm
    function; [Wrapper n] the [n]-th object made by
    [convertJsFunctionToWasm], a wasm function. *)
Inductive func :=
| JsFunc (id : nat)
| WasmFunc (id : nat)
| Wrapper (serial : nat).

#[global] Instance func_eq_dec : EqDecision func.
Proof. solve_decision. Defined.

Definition func_code (f : func) : nat * nat :=
  match f with JsFunc n => (0%nat, n) | WasmFunc n => (1%nat, n) | Wrapper n => (2%nat, n) end.

Definition func_decode (p : nat * nat) : func :=
  match p with (0%nat, n) => JsFunc n | (1%nat, n) => WasmFunc n | (_, n) => Wrapper n end.

#[global] Instance func_countable : Countable func.
Proof. apply (inj_countable' func_code func_decode). by intros []. Defined.

Definition is_wasm_function (f : func) : bool :=
  match f with JsFunc _ => false | _ => true end.

(** The module state: the wasm Table ([null] entries are [None]), its
    maximum size ([None]: growth never refused), [freeTableIndexes] (its
    end, where [push] and [pop] work, is the end of the list),
    [functionsInTableMap] ([None] while [undefined]), and the number of
    wrapper objects made so far. *)
Record state := mkState {
  wasmTable : list (option func);
  tableMaximum : option nat;
  freeTableIndexes : list nat;
  functionsInTableMap : option (gmap func nat);
  wrappersMade : nat
}.

Definition set_table (t : list (option func)) (st : state) : state :=
  mkState t (tableMaximum st) (freeTableIndexes st) (functionsInTableMap st) (wrappersMade st).
Definition set_free (l : list nat) (st : state) : state :=
  mkState (wasmTable st) (tableMaximum st) l (functionsInTableMap st) (wrappersMade st).
Definition set_map (m : option (gmap func nat)) (st : state) : state :=
  mkState (wasmTable st) (tableMaximum st) (freeTableIndexes st) m (wrappersMade st).
Definition set_made (n : nat) (st : state) : state :=
  mkState (wasmTable st) (tableMaximum st) (freeTableIndexes st) (functionsInTableMap st) n.

(** Stateful code: a thrown exception keeps the state reached so far. *)
Definition M (A : Type) := state -> outcome A * state.

Definition sret {A} (a : A) : M A := fun st => (Ret a, st).
Definition sthrow {A} (e : js_error) : M A := fun st => (Throw e, st).
Definition sbind {A B} (m : M A) (k : A -> M B) : M B :=
  fun st => match m st with
            | (Ret a, st') => k a st'
            | (Throw e, st') => (Throw e, st')
            end.
Definition slift {A} (o : outcome A) : M A := fun st => (o, st).
Definition sget : M state := fun st => (Ret st, st).
Definition smodify (f : state -> state) : M unit := fun st => (Ret tt, f st).
(** [try { m } catch (err) { h(err) }] *)
Definition scatch {A} (m : M A) (h : js_error -> M A) : M A :=
  fun st => match m st with
            | (Ret a, st') => (Ret a, st')
            | (Throw e, st') => h e st'
            end.

Notation "x <- m ;; k" := (sbind m (fun x => k))
  (at level 100, m at next level, right associativity).

(** *** The Table collaborator *)

(** [getWasmTableEntry(i)]: [wasmTable.get(i)], a [RangeError] out of
    bounds. *)
Definition getWasmTableEntry (i : nat) : M (option func) :=
  fun st => match wasmTable st !! i with
            | Some e => (Ret e, st)
            | None => (Throw RangeError, st)
            end.

(** [setWasmTableEntry(i, v)]: [wasmTable.set(i, v)], which converts [v] to
    a function reference first ([TypeError] for a plain JS function) and
    then writes ([RangeError] out of bounds). *)
Definition setWasmTableEntry (i : nat) (v : func) : M unit :=
  fun st => if negb (is_wasm_function v) then (Throw TypeError, st)
            else if decide (i < length (wasmTable st))%nat
            then (Ret tt, set_table (<[i := Some v]> (wasmTable st)) st)
            else (Throw RangeError, st).

(** [wasmTable.grow(1)]: a [RangeError] past the maximum size. *)
Definition wasmTable_grow1 : M unit :=
  fun st => match tableMaximum st with
            | Some mx => if decide (length (wasmTable st) + 1 <= mx)%nat
                         then (Ret tt, set_table (wasmTable st ++ [None]) st)
                         else (Throw RangeError, st)
            | None => (Ret tt, set_table (wasmTable st ++ [None]) st)
            end.

(** *** [$getEmptyTableSlot] *)

Definition growth_message : string :=
  "Unable to grow wasm table. Set ALLOW_TABLE_GROWTH.".

Definition getEmptyTableSlot : M nat :=
  st <- sget ;;
  match last (freeTableIndexes st) with
  | Some k => _ <- smodify (set_free (removelast (freeTableIndexes st))) ;; sret k
  | None =>
      _ <- scatch wasmTable_grow1
             (fun err => match err with
                         | RangeError => sthrow (ThrownString growth_message)
                         | e => sthrow e
                         end) ;;
      st' <- sget ;;
      sret (length (wasmTable st') - 1)%nat
  end.

(** *** [$updateTableMap] *)

(** [functionsInTableMap.set(f, i)]: a [TypeError] while the map is
    [undefined]. *)
Definition map_set (f : func) (i : nat) : M unit :=
  fun st => match functionsInTableMap st with
            | Some m => (Ret tt, set_map (Some (<[f := i]> m)) st)
            | None => (Throw TypeError, st)
            end.

Fixpoint updateTableMap (offset count : nat) : M unit :=
  match count with
  | O => sret tt
  | S c =>
      item <- getWasmTableEntry offset ;;
      _ <- match item with Some f => map_set f offset | None => sret tt end ;;
      updateTableMap (S offset) c
  end.

(** *** The host collaborators of [$convertJsFunctionToWasm] *)

(** Modelled from the spec: the host's [WebAssembly.Function] constructor and
    its [WebAssembly.Module]/[WebAssembly.Instance] pair, which live outside
    this repository.  Each returns a new wasm function object when given a
    well-formed function type (every type defined, at most 1000 parameters,
    the JS API limit), and fails otherwise. *)
Definition new_wrapper : M func :=
  fun st => (Ret (Wrapper (wrappersMade st)), set_made (S (wrappersMade st)) st).

Definition host_new_function (ty : wasm_sig_type) : M func :=
  if (forallb (fun o => bool_decide (is_Some o)) (parameters ty ++ results ty)
      && Nat.leb (length (parameters ty)) 1000)%bool
  then new_wrapper else sthrow TypeError.

Definition host_instantiate (MEMORY64 : bool) (sig : string) (bytes : list Z) : M func :=
  if (valid_sig MEMORY64 sig && Nat.leb (String.length sig) 1001)%bool
  then new_wrapper else sthrow CompileError.

Section Registry.
(** Build settings and the host capability [typeof WebAssembly.Function]. *)
Variable MEMORY64 : bool.
Variable ASSERTIONS : nat.
Variable hasWasmFunction : bool.

(** [$convertJsFunctionToWasm] outside WASM2JS builds; [sig] is [None] when
    the caller passed none ([sig[0]] and [sig.slice] then throw). *)
Definition convertJsFunctionToWasm (f : func) (sig : option string) : M func :=
  match sig with
  | None => sthrow TypeError
  | Some s =>
      if hasWasmFunction then
        ty <- slift (sigToWasmTypes MEMORY64 ASSERTIONS s) ;;
        host_new_function ty
      else
        bytes <- slift (module_bytes MEMORY64 ASSERTIONS s) ;;
        host_instantiate MEMORY64 s bytes
  end.

(** The [ASSERTIONS >= 2] loop: no table entry is [func]. *)
Definition check_not_in_table (f : func) : M unit :=
  st <- sget ;;
  slift (js_assert ASSERTIONS
           (negb (existsb (fun e => bool_decide (e = Some f)) (wasmTable st)))
           "function in Table but not functionsInTableMap").

(** The first block of [$addFunction]: create the map on first use and
    scan the whole Table into it. *)
Definition initTableMap : M unit :=
  st0 <- sget ;;
  match functionsInTableMap st0 with
  | None => _ <- smodify (set_map (Some ∅)) ;;
            updateTableMap 0 (length (wasmTable st0))
  | Some _ => sret tt
  end.

(** The [try { setWasmTableEntry(ret, func) } catch (err) { ... }] block of
    [$addFunction].  The assertion message also carries the function's
    source text, left out here. *)
Definition placeFunction (ret : nat) (f : func) (sig : option string) : M unit :=
  scatch (setWasmTableEntry ret f)
    (fun err => match err with
                | TypeError =>
                    _ <- slift (js_assert ASSERTIONS (bool_decide (is_Some sig))
                                 "Missing signature argument to addFunction: ") ;;
                    wrapped <- convertJsFunctionToWasm f sig ;;
                    setWasmTableEntry ret wrapped
                | e => sthrow e
                end).

(** [$addFunction]. *)
Definition addFunction (f : func) (sig : option string) : M nat :=
  _ <- initTableMap ;;
  st1 <- sget ;;
  match functionsInTableMap st1 ≫= (lookup f) with
  | Some i => sret i
  | None =>
      _ <- (if decide (2 <= ASSERTIONS)%nat then check_not_in_table f else sret tt) ;;
      ret <- getEmptyTableSlot ;;
      _ <- placeFunction ret f sig ;;
      _ <- map_set f ret ;;
      sret ret
  end.

(** [$removeFunction]: [functionsInTableMap.delete] on an [undefined] map
    is a [TypeError]; [delete(null)] removes nothing. *)
Definition removeFunction (index : nat) : M unit :=
  st <- sget ;;
  match functionsInTableMap st with
  | None => sthrow TypeError
  | Some _ =>
      e <- getWasmTableEntry index ;;
      _ <- smodify (fun st' => set_map
                       (match functionsInTableMap st', e with
                        | Some m, Some g => Some (delete g m)
                        | m, _ => m
                        end) st') ;;
      smodify (fun st' => set_free (freeTableIndexes st' ++ [index]) st')
  end.

End Registry.

(** A valid signature of 16378 parameters: its type section body is
    16384 bytes long. *)
Fixpoint repeat_char (k : nat) (x : ascii) : string :=
  match k with O => EmptyString | S k' => String x (repeat_char k' x) end.
Definition long_params : string := repeat_char (Z.to_nat 16378) "i"%char.
Definition long_sig : string := String "i"%char long_params.

(** [f] already has a slot: recorded in the map, or, before the map exists,
    an entry of the Table that the first-use scan will record. *)
Definition already_registered (st : state) (f : func) : Prop :=
  match functionsInTableMap st with
  | Some m => is_Some (m !! f)
  | None => Some f ∈ wasmTable st
  end.

(** A callable [addFunction] can place: a wasm function, or a JS function
    given with a valid signature of at most 1000 parameters. *)
Definition registrable (MEMORY64 : bool) (f : func) (sig : option string) : Prop :=
  is_wasm_function f = true \/
  exists s, sig = Some s /\ valid_sig MEMORY64 s = true /\ (String.length s <= 1001)%nat.

(** A callable of the caller's own, not an object made by
    [convertJsFunctionToWasm]. *)
Definition not_wrapper (f : func) : Prop :=
  match f with Wrapper _ => False | _ => True end.

Definition frame_example_state : state :=
  mkState [Some (WasmFunc 1); None] None [] None 0.

(** A Table at its maximum size of one entry, with the map not created. *)
Definition growth_example_state : state :=
  mkState [Some (WasmFunc 1)] (Some 1%nat) [] None 0.

(** A parameter character of the tag set. *)
Definition valid_tag (MEMORY64 : bool) (x : ascii) : bool :=
  bool_decide (is_Some (typeNames MEMORY64 x)).

(** A step that leaves the Table as it is, whatever its outcome. *)
Definition keeps_table {A} (m : M A) : Prop :=
  forall st o st', m st = (o, st') -> wasmTable st' = wasmTable st.

Definition initial_state : state := mkState [] None [] None 0.

(** A JS function registered with signature ["v"] (placed through a
    wrapper), then its slot released. *)
Definition st_js_added : state :=
  snd (addFunction false 1 false (JsFunc 0) (Some "v") initial_state).
Definition st_js_removed : state := snd (removeFunction 0 st_js_added).

(** A wasm function registered after that release. *)
Definition st_slot_reused : state :=
  snd (addFunction false 1 false (WasmFunc 5) None st_js_removed).

(* NEWDEFS *)
(** The reference LEB128 decoder: the low 7 bits of each byte, least
    significant group first, until a byte without bit 7. *)
Fixpoint uleb128_decode (bs : list Z) : option (Z * list Z) :=
  match bs with
  | [] => None
  | b :: rest =>
      if b <? 128 then Some (b, rest)
      else match uleb128_decode rest with
           | Some (v, r) => Some (Z.land b 127 + v * 128, r)
           | None => None
           end
  end.

(** Every index on the free list and every slot recorded in the map lies
    inside the Table. *)
Definition slots_in_bounds (st : state) : Prop :=
  Forall (fun k => (k < length (wasmTable st))%nat) (freeTableIndexes st) /\
  (forall m, functionsInTableMap st = Some m ->
     forall g i, m !! g = Some i -> (i < length (wasmTable st))%nat).

(** A step that leaves the Table, the free list and the map as they are. *)
Definition keeps_slots {A} (m : M A) : Prop :=
  forall st o st', m st = (o, st') ->
    wasmTable st' = wasmTable st /\ freeTableIndexes st' = freeTableIndexes st /\
    functionsInTableMap st' = functionsInTableMap st.

(** Two wasm functions in a Table of two slots, both in the map. *)
Definition two_wasm_state : state :=
  mkState [Some (WasmFunc 1); Some (WasmFunc 2)] None []
    (Some {[WasmFunc 1 := 0%nat; WasmFunc 2 := 1%nat]}) 0.

(** ** Examples *)
Example uleb_ex : map uleb128_spec [0; 1; 127; 128; 129; 16383; 16384]
  = [[0]; [1]; [127]; [128; 1]; [129; 1]; [255; 127]; [128; 128; 1]].
Proof. vm_compute. reflexivity. Qed.

Example sig_ex : sigToWasmTypes false 1 "vii"
  = Ret {| parameters := [Some I32; Some I32]; results := [] |}.
Proof. vm_compute. reflexivity. Qed.

Example mod_ex : module_bytes false 1 "vi" = Ret (spec_module_bytes false "v" "i").
Proof. vm_compute. reflexivity. Qed.

(** ** Helper lemmas *)

Lemma js_assert_true (A : nat) (msg : string) : js_assert A true msg = Ret tt.
Proof. unfold js_assert. by rewrite andb_false_r. Qed.

Lemma js_assert_off (cond : bool) (msg : string) : js_assert 0 cond msg = Ret tt.
Proof. reflexivity. Qed.

Lemma lor_128 (x : Z) : 0 <= x < 128 -> Z.lor x 128 = x + 128.
Proof.
  intros Hx.
  assert (Hk : forall k : nat, (k < 128)%nat -> Z.lor (Z.of_nat k) 128 = Z.of_nat k + 128).
  { intros k Hk. do 128 (destruct k as [|k]; [reflexivity|]). lia. }
  rewrite <- (Z2Nat.id x) by lia. apply Hk. lia.
Qed.

Lemma toInt32_small (z : Z) : 0 <= z < 2 ^ 31 -> toInt32 z = z.
Proof.
  intros Hz. unfold toInt32. rewrite Z.mod_small by lia.
  destruct (z >=? 2 ^ 31) eqn:E; [apply Z.geb_le in E; lia | reflexivity].
Qed.

Lemma uleb128_spec_small (n : Z) : 0 <= n < 16384 ->
  uleb128_spec n = if n <? 128 then [n] else [n mod 128 + 128; n / 128].
Proof.
  intros Hn. unfold uleb128_spec.
  destruct (n <? 128) eqn:E.
  - cbn [uleb128_groups]. by rewrite E.
  - apply Z.ltb_ge in E.
    assert (Hl : 7 <= Z.log2 n).
    { change 7 with (Z.log2 128). apply Z.log2_le_mono. lia. }
    destruct (Z.to_nat (Z.log2 n)) as [|f] eqn:Ef; [lia|].
    cbn [uleb128_groups]. replace (n <? 128) with false by (symmetry; apply Z.ltb_ge; lia).
    destruct f as [|f]; [lia|]. cbn [uleb128_groups].
    replace (n / 128 <? 128) with true by (symmetry; apply Z.ltb_lt; apply Z.div_lt_upper_bound; lia).
    reflexivity.
Qed.

Lemma uleb128Encode_small (A : nat) (n : Z) (target : list (option Z)) :
  0 <= n < 16384 ->
  uleb128Encode A n target = Ret (target ++ map Some (uleb128_spec n)).
Proof.
  intros Hn. unfold uleb128Encode.
  replace (n <? 16384) with true by (symmetry; apply Z.ltb_lt; lia).
  rewrite js_assert_true. cbn [obind]. rewrite uleb128_spec_small by lia.
  destruct (n <? 128) eqn:E; [reflexivity|].
  apply Z.ltb_ge in E.
  assert (Hm : 0 <= n mod 128 < 128) by (apply Z.mod_pos_bound; lia).
  rewrite (toInt32_small (n mod 128)) by lia. rewrite toInt32_small by lia.
  rewrite lor_128 by lia. rewrite Z.shiftr_div_pow2 by lia. reflexivity.
Qed.

Lemma uleb128_spec_bytes (n : Z) : 0 <= n < 16384 ->
  Forall (fun z => 0 <= z < 256) (uleb128_spec n) /\ (length (uleb128_spec n) <= 2)%nat.
Proof.
  intros Hn. rewrite uleb128_spec_small by lia.
  destruct (n <? 128) eqn:E.
  - apply Z.ltb_lt in E. split; [repeat constructor; lia | simpl; lia].
  - apply Z.ltb_ge in E.
    assert (0 <= n mod 128 < 128) by (apply Z.mod_pos_bound; lia).
    assert (0 <= n / 128 < 128) by (split; [apply Z.div_pos | apply Z.div_lt_upper_bound]; lia).
    split; [repeat constructor; lia | simpl; lia].
Qed.

Lemma sig_params_loop_valid (MEMORY64 : bool) (A : nat) (rest : string)
  (acc : list (option wasm_type)) :
  forallb (valid_tag MEMORY64) (list_ascii_of_string rest) = true ->
  sig_params_loop MEMORY64 A rest acc
  = Ret (acc ++ map (typeNames MEMORY64) (list_ascii_of_string rest)).
Proof.
  revert acc. induction rest as [|x rest IH]; intros acc H.
  - simpl. by rewrite app_nil_r.
  - simpl in H. apply andb_true_iff in H as [Hx Hr]. unfold valid_tag in Hx.
    cbn [sig_params_loop]. rewrite Hx, js_assert_true. cbn [obind].
    rewrite IH by done. simpl. by rewrite <- app_assoc.
Qed.

Lemma sig_params_loop_off (MEMORY64 : bool) (rest : string)
  (acc : list (option wasm_type)) :
  sig_params_loop MEMORY64 0 rest acc
  = Ret (acc ++ map (typeNames MEMORY64) (list_ascii_of_string rest)).
Proof.
  revert acc. induction rest as [|x rest IH]; intros acc.
  - simpl. by rewrite app_nil_r.
  - cbn [sig_params_loop]. rewrite js_assert_off. cbn [obind].
    rewrite IH. simpl. by rewrite <- app_assoc.
Qed.

Lemma sig_params_loop_invalid (MEMORY64 : bool) (A : nat) (pre post : string)
  (x : ascii) (acc : list (option wasm_type)) :
  A <> 0%nat ->
  forallb (valid_tag MEMORY64) (list_ascii_of_string pre) = true ->
  typeNames MEMORY64 x = None ->
  sig_params_loop MEMORY64 A (pre +:+ String x post) acc
  = Throw (AssertionError ("invalid signature char: " +:+ String x EmptyString)).
Proof.
  intros HA. revert acc. induction pre as [|y pre IH]; intros acc Hpre Hx.
  - simpl. unfold js_assert.
    rewrite Hx. replace (Nat.eqb A 0) with false by (symmetry; apply Nat.eqb_neq; done).
    reflexivity.
  - simpl in Hpre. apply andb_true_iff in Hpre as [Hy Hr]. unfold valid_tag in Hy.
    simpl. rewrite Hy, js_assert_true. cbn [obind].
    by apply IH.
Qed.

Lemma typeCodes_valid (MEMORY64 : bool) (x : ascii) :
  valid_tag MEMORY64 x = true ->
  typeCodes MEMORY64 x = Some (spec_type_code MEMORY64 x).
Proof.
  unfold valid_tag, typeNames, typeCodes, spec_type_code.
  repeat case_decide; subst; try done; intros H; inversion H.
Qed.

Lemma spec_type_code_byte (MEMORY64 : bool) (x : ascii) :
  0 <= spec_type_code MEMORY64 x < 256.
Proof.
  unfold spec_type_code. repeat case_decide; try lia. destruct MEMORY64; lia.
Qed.

Lemma push_param_codes_valid (MEMORY64 : bool) (A : nat) (rest : string)
  (body : list (option Z)) :
  forallb (valid_tag MEMORY64) (list_ascii_of_string rest) = true ->
  push_param_codes MEMORY64 A rest body
  = Ret (body ++ map Some (map (spec_type_code MEMORY64) (list_ascii_of_string rest))).
Proof.
  revert body. induction rest as [|x rest IH]; intros body H.
  - simpl. by rewrite app_nil_r.
  - simpl in H. apply andb_true_iff in H as [Hx Hr].
    cbn [push_param_codes]. rewrite (typeCodes_valid _ _ Hx), js_assert_true.
    cbn [obind]. rewrite IH by done. simpl. by rewrite <- app_assoc.
Qed.

Lemma to_uint8_bytes (l : list Z) :
  Forall (fun z => 0 <= z < 256) l -> to_uint8 (map Some l) = l.
Proof.
  induction 1 as [|z l Hz _ IH]; [done|].
  simpl. rewrite Z.mod_small by lia. by rewrite IH.
Qed.

(** Every element of a list of JS numbers is a byte. *)
Ltac bytes_ok :=
  repeat lazymatch goal with
  | |- Forall _ [] => constructor
  | |- Forall _ (_ :: _) => constructor; [first [lia | apply spec_type_code_byte] |]
  | |- Forall _ (_ ++ _) => apply Forall_app; split
  | |- Forall _ _ => assumption
  end.

Lemma module_bytes_ok (MEMORY64 : bool) (ASSERTIONS : nat) (c : ascii) (params : string) :
  valid_sig MEMORY64 (String c params) = true ->
  Z.of_nat (String.length params) <= 16377 ->
  module_bytes MEMORY64 ASSERTIONS (String c params) = Ret (spec_module_bytes MEMORY64 c params).
Proof.
  intros Hv Hlen. unfold valid_sig in Hv. apply andb_true_iff in Hv as [Hc Hp].
  unfold module_bytes, fallback_bytes, spec_module_bytes, spec_type_body.
  cbn [substring sig_slice1].
  set (n := String.length params) in *.
  assert (Hn : 0 <= Z.of_nat n < 16384) by lia.
  destruct (uleb128_spec_bytes _ Hn) as [Hun Hul].
  rewrite uleb128Encode_small by exact Hn. cbn [obind].
  rewrite push_param_codes_valid by exact Hp. cbn [obind].
  set (codes := map (spec_type_code MEMORY64) (list_ascii_of_string params)).
  assert (Hcl : length codes = n).
  { subst codes n. rewrite length_map. clear. induction params; simpl; auto. }
  assert (Hcb : Forall (fun z => 0 <= z < 256) codes).
  { subst codes. apply Forall_forall. intros z Hz. apply list_elem_of_In in Hz.
    apply in_map_iff in Hz as (x & <- & _). apply spec_type_code_byte. }
  set (tail := if decide (c = "v"%char) then [0x00] else [0x01; spec_type_code MEMORY64 c]).
  replace (substring 0 0 params) with EmptyString by (destruct params; reflexivity).
  assert (Htail : (if decide (String c EmptyString = "v") then
                     (([Some 1; Some 96] ++ map Some (uleb128_spec (Z.of_nat n))) ++
                       map Some codes) ++ [Some 0]
                   else (([Some 1; Some 96] ++ map Some (uleb128_spec (Z.of_nat n))) ++
                       map Some codes) ++ [Some 1; typeCodesStr MEMORY64 (String c EmptyString)])
                  = map Some ([0x01; 0x60] ++ uleb128_spec (Z.of_nat n) ++ codes ++ tail)).
  { subst tail. cbn [typeCodesStr].
    destruct (decide (c = "v"%char)) as [->|Hne].
    - rewrite decide_True by done. rewrite !map_app, <- !app_assoc. reflexivity.
    - rewrite decide_False by congruence.
      rewrite (typeCodes_valid MEMORY64 c).
      + rewrite !map_app, <- !app_assoc. reflexivity.
      + apply orb_true_iff in Hc as [Hc|Hc]; [|done].
        apply bool_decide_eq_true in Hc. congruence. }
  rewrite Htail. clear Htail.
  set (body := [0x01; 0x60] ++ uleb128_spec (Z.of_nat n) ++ codes ++ tail).
  assert (Hbl : Z.of_nat (length body) <= 16383).
  { subst body tail. rewrite !length_app, Hcl. simpl. case_decide; simpl; lia. }
  assert (Hbb : Forall (fun z => 0 <= z < 256) body).
  { subst body tail. case_decide; bytes_ok. }
  rewrite length_map.
  assert (Hbn : 0 <= Z.of_nat (length body) < 16384) by lia.
  destruct (uleb128_spec_bytes _ Hbn) as [Hbu _].
  rewrite uleb128Encode_small by exact Hbn. cbn [obind].
  rewrite <- !map_app. f_equal.
  rewrite to_uint8_bytes.
  - rewrite <- !app_assoc. reflexivity.
  - bytes_ok.
Qed.

Lemma length_list_ascii (s : string) : length (list_ascii_of_string s) = String.length s.
Proof. induction s; cbn; auto. Qed.

Lemma fallback_bytes_body (MEMORY64 : bool) (ASSERTIONS : nat) (c : ascii) (params : string) :
  valid_sig MEMORY64 (String c params) = true ->
  Z.of_nat (String.length params) < 16384 ->
  fallback_bytes MEMORY64 ASSERTIONS (String c params)
  = (bytes <-? uleb128Encode ASSERTIONS (Z.of_nat (length (spec_type_body MEMORY64 c params)))
                 (map Some [0x00; 0x61; 0x73; 0x6d; 0x01; 0x00; 0x00; 0x00; 0x01]) ;;
     Ret ((bytes ++ map Some (spec_type_body MEMORY64 c params))
          ++ map Some [0x02; 0x07; 0x01; 0x01; 0x65; 0x01; 0x66; 0x00; 0x00;
                       0x07; 0x05; 0x01; 0x01; 0x66; 0x00; 0x00])).
Proof.
  intros Hv Hlen. unfold valid_sig in Hv. apply andb_true_iff in Hv as [Hc Hp].
  unfold fallback_bytes, spec_type_body.
  cbn [substring sig_slice1].
  set (n := String.length params) in *.
  assert (Hn : 0 <= Z.of_nat n < 16384) by lia.
  rewrite uleb128Encode_small by exact Hn. cbn [obind].
  rewrite push_param_codes_valid by exact Hp. cbn [obind].
  replace (substring 0 0 params) with EmptyString by (destruct params; reflexivity).
  cbn [typeCodesStr].
  destruct (decide (c = "v"%char)) as [->|Hne].
  - rewrite !decide_True by done. rewrite !map_app, <- !app_assoc, !length_app, !length_map.
    reflexivity.
  - rewrite !decide_False by congruence.
    rewrite (typeCodes_valid MEMORY64 c).
    + rewrite !map_app, <- !app_assoc, !length_app, !length_map. reflexivity.
    + apply orb_true_iff in Hc as [Hc|Hc]; [|done].
      apply bool_decide_eq_true in Hc. congruence.
Qed.

Lemma repeat_char_length (k : nat) (x : ascii) : String.length (repeat_char k x) = k.
Proof. induction k; cbn; auto. Qed.

Lemma repeat_char_forallb (f : ascii -> bool) (k : nat) (x : ascii) :
  f x = true -> forallb f (list_ascii_of_string (repeat_char k x)) = true.
Proof. intros Hx. induction k; cbn; [done|]. by rewrite Hx, IHk. Qed.

Lemma long_sig_valid : valid_sig false long_sig = true.
Proof.
  unfold long_sig, valid_sig. apply andb_true_iff. split; [reflexivity|].
  unfold long_params. by apply repeat_char_forallb.
Qed.

Lemma long_params_length : Z.of_nat (String.length long_params) = 16378.
Proof. unfold long_params. rewrite repeat_char_length. reflexivity. Qed.

Lemma long_sig_body_length :
  Z.of_nat (length (spec_type_body false "i" long_params)) = 16384.
Proof.
  unfold spec_type_body. rewrite long_params_length.
  rewrite !length_app, length_map, length_list_ascii.
  rewrite decide_False by discriminate. cbn [length].
  replace (length (uleb128_spec 16378)) with 2%nat by reflexivity.
  pose proof long_params_length. lia.
Qed.

(** C6 (amended): on the path without [WebAssembly.Function], for every
    valid signature with at most 16377 parameters (so that the type section
    body stays below 2^14 bytes), the module bytes are exactly the
    documented wire format: magic, version, type section 01 with its ULEB128
    length, body 01 60, ULEB128 parameter count, one code per parameter,
    00 or 01 and the result code, then the fixed import and export
    sections. *)
Theorem fallback_module_wire_format (MEMORY64 : bool) (ASSERTIONS : nat) (c : ascii)
  (params : string) :
  valid_sig MEMORY64 (String c params) = true ->
  Z.of_nat (String.length params) <= 16377 ->
  module_bytes MEMORY64 ASSERTIONS (String c params) = Ret (spec_module_bytes MEMORY64 c params).
Proof. apply module_bytes_ok. Qed.

Lemma fallback_module_wire_format_witness :
  valid_sig false "iij" = true /\ Z.of_nat (String.length "ij") <= 16377 /\
  module_bytes false 1 "iij" = Ret (spec_module_bytes false "i" "ij").
Proof.
  split; [reflexivity|]. split; [cbn; lia|].
  apply (fallback_module_wire_format false 1 "i"%char "ij"); [reflexivity | cbn; lia].
Defined.

(** C6 (counterexample): a valid signature with 16378 parameters; the type
    section body is 16384 bytes, beyond the encoder's range: without
    assertions the length prefix is not ULEB128, with them the encoder's
    assertion throws. *)
Lemma fallback_module_long_signature :
  valid_sig false long_sig = true /\
  module_bytes false 0 long_sig <> Ret (spec_module_bytes false "i" long_params) /\
  module_bytes false 1 long_sig <> Ret (spec_module_bytes false "i" long_params).
Proof.
  split; [exact long_sig_valid|].
  assert (Hl : Z.of_nat (String.length long_params) < 16384)
    by (rewrite long_params_length; lia).
  unfold module_bytes, long_sig. split.
  - rewrite (fallback_bytes_body false 0 "i" long_params long_sig_valid Hl).
    rewrite long_sig_body_length.
    replace (uleb128Encode 0 16384 _)
      with (Ret (map Some [0x00; 0x61; 0x73; 0x6d; 0x01; 0x00; 0x00; 0x00; 0x01]
                 ++ [Some 128; Some 128])) by reflexivity.
    cbn [obind]. intros H.
    apply (f_equal (fun o => match o with Ret l => length l | Throw _ => O end)) in H.
    cbv beta iota in H.
    unfold to_uint8, spec_module_bytes in H. cbv zeta in H.
    rewrite long_sig_body_length in H.
    rewrite !length_map, !length_app, !length_map in H. cbn [length] in H.
    replace (length (uleb128_spec 16384)) with 3%nat in H by reflexivity. lia.
  - rewrite (fallback_bytes_body false 1 "i" long_params long_sig_valid Hl).
    rewrite long_sig_body_length. discriminate.
Qed.

(** C7: [uleb128Encode(n, target)] appends [0], [1], [127], [0x80, 1],
    [0x81, 1], [0xFF, 0x7F] for n = 0, 1, 127, 128, 129, 16383, and for every
    0 <= n < 2^14 it appends exactly the 7-bits-per-byte, least-significant
    group first encoding with bit 7 set on all bytes but the last, leaving
    the rest of [target] as it was. *)
Theorem uleb128Encode_appends (ASSERTIONS : nat) (n : Z) (target : list (option Z)) :
  0 <= n < 16384 ->
  uleb128Encode ASSERTIONS n target = Ret (target ++ map Some (uleb128_spec n)) /\
  Forall2 (fun m bs => uleb128Encode ASSERTIONS m target = Ret (target ++ map Some bs))
    [0; 1; 127; 128; 129; 16383] [[0]; [1]; [127]; [0x80; 1]; [0x81; 1]; [0xFF; 0x7F]].
Proof.
  intros Hn. split; [by apply uleb128Encode_small|].
  repeat constructor; rewrite uleb128Encode_small by lia; reflexivity.
Qed.

Lemma uleb128Encode_appends_witness :
  0 <= 300 < 16384 /\
  uleb128Encode 1 300 [Some 7] = Ret ([Some 7] ++ map Some (uleb128_spec 300)).
Proof.
  split; [lia|]. apply (uleb128Encode_appends 1 300 [Some 7]). lia.
Defined.

Lemma forallb_valid_is_Some (MEMORY64 : bool) (rest : string) :
  forallb (valid_tag MEMORY64) (list_ascii_of_string rest) = true ->
  Forall is_Some (map (typeNames MEMORY64) (list_ascii_of_string rest)).
Proof.
  induction rest as [|x rest IH]; simpl; [constructor|].
  intros H. apply andb_true_iff in H as [Hx Hr]. unfold valid_tag in Hx.
  apply bool_decide_eq_true in Hx. constructor; auto.
Qed.

(** C8: "vii" translates to parameters [i32, i32] and results [], "ifd" to
    [f32, f64] and [i32]; for every valid signature the results are empty
    iff the first character is 'v', and otherwise one type, and the
    parameters are the types of the remaining characters in order. *)
Theorem sigToWasmTypes_shape (MEMORY64 : bool) (ASSERTIONS : nat) (c : ascii) (rest : string) :
  valid_sig MEMORY64 (String c rest) = true ->
  sigToWasmTypes MEMORY64 ASSERTIONS "vii"
    = Ret {| parameters := [Some I32; Some I32]; results := [] |} /\
  sigToWasmTypes MEMORY64 ASSERTIONS "ifd"
    = Ret {| parameters := [Some F32; Some F64]; results := [Some I32] |} /\
  exists ty, sigToWasmTypes MEMORY64 ASSERTIONS (String c rest) = Ret ty /\
    (results ty = [] <-> c = "v"%char) /\
    (c <> "v"%char -> exists t, results ty = [Some t]) /\
    parameters ty = map (typeNames MEMORY64) (list_ascii_of_string rest) /\
    Forall is_Some (parameters ty).
Proof.
  intros Hv. unfold valid_sig in Hv. apply andb_true_iff in Hv as [Hc Hp].
  split; [unfold sigToWasmTypes; rewrite sig_params_loop_valid by reflexivity; reflexivity|].
  split; [unfold sigToWasmTypes; rewrite sig_params_loop_valid by reflexivity; reflexivity|].
  unfold sigToWasmTypes. rewrite sig_params_loop_valid by exact Hp. cbn [obind].
  eexists. split; [reflexivity|]. cbn [results parameters].
  split; [|split; [|split; [reflexivity | by apply forallb_valid_is_Some]]].
  - case_decide; split; done.
  - intros Hne. rewrite decide_False by done.
    apply orb_true_iff in Hc as [Hc|Hc].
    + apply bool_decide_eq_true in Hc. done.
    + apply bool_decide_eq_true in Hc as [t Ht]. exists t. by rewrite Ht.
Qed.

Lemma sigToWasmTypes_shape_witness :
  valid_sig false "jpd" = true /\
  exists ty, sigToWasmTypes false 2 "jpd" = Ret ty /\
    (results ty = [] <-> "j"%char = "v"%char) /\
    ("j"%char <> "v"%char -> exists t, results ty = [Some t]) /\
    parameters ty = map (typeNames false) (list_ascii_of_string "pd") /\
    Forall is_Some (parameters ty).
Proof.
  split; [reflexivity|].
  apply (sigToWasmTypes_shape false 2 "j"%char "pd"). reflexivity.
Defined.

(** C5 (counterexample): an invalid first (result) character is mapped to
    [undefined] with no error, even with assertions; without assertions an
    invalid parameter character is mapped to [undefined] too; and the
    assertion message names the character but not its position. *)
Lemma sigToWasmTypes_unchecked_chars :
  sigToWasmTypes false 1 "xi" = Ret {| parameters := [Some I32]; results := [None] |} /\
  sigToWasmTypes false 0 "vx" = Ret {| parameters := [None]; results := [] |} /\
  sigToWasmTypes false 1 "vx" = Throw (AssertionError "invalid signature char: x").
Proof. vm_compute. auto. Qed.

(** C5 (amended): in an ASSERTIONS build, a character outside the tag set
    in a parameter position (the first such one) makes [sigToWasmTypes]
    throw an assertion error whose message is "invalid signature char: "
    followed by that character, without its position; without ASSERTIONS no
    character is checked and an invalid parameter character becomes
    [undefined]. *)
Theorem sigToWasmTypes_param_assert (MEMORY64 : bool) (ASSERTIONS : nat)
  (c x : ascii) (pre post : string) :
  ASSERTIONS <> 0%nat ->
  forallb (valid_tag MEMORY64) (list_ascii_of_string pre) = true ->
  typeNames MEMORY64 x = None ->
  sigToWasmTypes MEMORY64 ASSERTIONS (String c (pre +:+ String x post))
    = Throw (AssertionError ("invalid signature char: " +:+ String x EmptyString)) /\
  (forall sig, exists ty, sigToWasmTypes MEMORY64 0 sig = Ret ty /\
     parameters ty = map (typeNames MEMORY64) (list_ascii_of_string (sig_slice1 sig))).
Proof.
  intros HA Hpre Hx. split.
  - unfold sigToWasmTypes. by rewrite sig_params_loop_invalid.
  - intros sig. unfold sigToWasmTypes. rewrite sig_params_loop_off.
    eexists. split; [reflexivity|]. by destruct sig.
Qed.

Lemma sigToWasmTypes_param_assert_witness :
  (1 <> 0)%nat /\ forallb (valid_tag false) (list_ascii_of_string "i") = true /\
  typeNames false "q"%char = None /\
  sigToWasmTypes false 1 (String "v" ("i" +:+ String "q" "d"))
    = Throw (AssertionError ("invalid signature char: " +:+ String "q" EmptyString)).
Proof.
  split; [lia|]. split; [reflexivity|]. split; [reflexivity|].
  apply (sigToWasmTypes_param_assert false 1 "v"%char "q"%char "i" "d");
    [lia | reflexivity | reflexivity].
Defined.

(** ** Registry lemmas *)

Lemma sbind_ret_inv {A B} (m : M A) (k : A -> M B) (st st'' : state) (b : B) :
  sbind m k st = (Ret b, st'') ->
  exists a st', m st = (Ret a, st') /\ k a st' = (Ret b, st'').
Proof. unfold sbind. destruct (m st) as [[a|e] st']; [eauto | discriminate]. Qed.

Lemma scatch_ret_inv {A} (m : M A) (h : js_error -> M A) (st st'' : state) (a : A) :
  scatch m h st = (Ret a, st'') ->
  m st = (Ret a, st'') \/ exists e st', m st = (Throw e, st') /\ h e st' = (Ret a, st'').
Proof. unfold scatch. destruct (m st) as [[a'|e] st']; intros H; [left | right]; eauto. Qed.

Lemma sbind_sget {A} (k : state -> M A) (st : state) : sbind sget k st = k st st.
Proof. reflexivity. Qed.

Lemma sret_inv {A} (a b : A) (st st' : state) :
  sret a st = (Ret b, st') -> a = b /\ st = st'.
Proof. unfold sret. intros H. by inversion H. Qed.

Ltac peel H := apply sbind_ret_inv in H as (?a & ?st & ?Hstep & H).

Lemma keeps_table_bind {A B} (m : M A) (k : A -> M B) :
  keeps_table m -> (forall a, keeps_table (k a)) -> keeps_table (sbind m k).
Proof.
  intros Hm Hk st o st'. unfold sbind.
  destruct (m st) as [[a|e] s1] eqn:E; intros H.
  - rewrite (Hk a s1 o st' H). exact (Hm _ _ _ E).
  - inversion H; subst. exact (Hm _ _ _ E).
Qed.

Lemma keeps_table_sret {A} (a : A) : keeps_table (sret a).
Proof. intros st o st' H. by inversion H. Qed.

Lemma keeps_table_sthrow {A} (e : js_error) : keeps_table (@sthrow A e).
Proof. intros st o st' H. by inversion H. Qed.

Lemma keeps_table_slift {A} (o : outcome A) : keeps_table (slift o).
Proof. intros st o' st' H. by inversion H. Qed.

Lemma keeps_table_sget : keeps_table sget.
Proof. intros st o st' H. by inversion H. Qed.

Lemma keeps_table_getWasmTableEntry (i : nat) : keeps_table (getWasmTableEntry i).
Proof. intros st o st' H. unfold getWasmTableEntry in H. by destruct (wasmTable st !! i); inversion H. Qed.

Lemma keeps_table_map_set (f : func) (i : nat) : keeps_table (map_set f i).
Proof. intros st o st' H. unfold map_set in H. by destruct (functionsInTableMap st); inversion H. Qed.

Lemma keeps_table_new_wrapper : keeps_table new_wrapper.
Proof. intros st o st' H. by inversion H. Qed.

Create HintDb table_frame.
#[local] Hint Resolve keeps_table_bind keeps_table_sret keeps_table_sthrow keeps_table_slift
  keeps_table_sget keeps_table_getWasmTableEntry keeps_table_map_set
  keeps_table_new_wrapper : table_frame.

Lemma keeps_table_smodify_map (g : state -> option (gmap func nat)) :
  keeps_table (smodify (fun st => set_map (g st) st)).
Proof. intros st o st' H. by inversion H. Qed.

Lemma keeps_table_set_map (m : option (gmap func nat)) : keeps_table (smodify (set_map m)).
Proof. intros st o st' H. by inversion H. Qed.

Lemma keeps_table_updateTableMap (offset count : nat) : keeps_table (updateTableMap offset count).
Proof.
  revert offset. induction count as [|c IH]; intros offset; simpl.
  - apply keeps_table_sret.
  - apply keeps_table_bind; [apply keeps_table_getWasmTableEntry|].
    intros [f|]; apply keeps_table_bind; auto with table_frame.
Qed.

Lemma keeps_table_convert (MEMORY64 : bool) (A : nat) (hw : bool) (f : func)
  (sig : option string) : keeps_table (convertJsFunctionToWasm MEMORY64 A hw f sig).
Proof.
  unfold convertJsFunctionToWasm, host_new_function, host_instantiate.
  destruct sig as [s|]; [|auto with table_frame].
  destruct hw; apply keeps_table_bind; auto with table_frame;
    intros a; case_match; auto with table_frame.
Qed.

Lemma keeps_table_check (A : nat) (f : func) : keeps_table (check_not_in_table A f).
Proof. unfold check_not_in_table. auto with table_frame. Qed.

Lemma setWasmTableEntry_ret (i : nat) (v : func) (st st' : state) (u : unit) :
  setWasmTableEntry i v st = (Ret u, st') ->
  (i < length (wasmTable st))%nat /\ wasmTable st' = <[i := Some v]> (wasmTable st) /\
  st' = set_table (<[i := Some v]> (wasmTable st)) st.
Proof.
  unfold setWasmTableEntry. destruct (is_wasm_function v); cbn;
    [|intros Hs; discriminate Hs].
  case_decide; intros Hs; inversion Hs; subst; auto.
Qed.

Lemma setWasmTableEntry_throw (i : nat) (v : func) (st st' : state) (e : js_error) :
  setWasmTableEntry i v st = (Throw e, st') -> st' = st.
Proof.
  unfold setWasmTableEntry. destruct (is_wasm_function v); cbn; [case_decide|];
    intros Hs; by inversion Hs.
Qed.

Lemma getEmptyTableSlot_ret (st st' : state) (k : nat) :
  getEmptyTableSlot st = (Ret k, st') ->
  (wasmTable st' = wasmTable st /\ functionsInTableMap st' = functionsInTableMap st)
  \/ (wasmTable st' = wasmTable st ++ [None] /\ k = length (wasmTable st) /\
      functionsInTableMap st' = functionsInTableMap st).
Proof.
  unfold getEmptyTableSlot. rewrite sbind_sget.
  destruct (last (freeTableIndexes st)) as [j|].
  - intros H. peel H. inversion Hstep; subst. inversion H; subst. by left.
  - intros H. peel H. apply scatch_ret_inv in Hstep as [Hg|(e & s1 & Hg & Hh)].
    + unfold wasmTable_grow1 in Hg. rewrite sbind_sget in H. inversion H; subst.
      right. destruct (tableMaximum st) as [mx|]; [case_decide|];
        inversion Hg; subst; cbn; rewrite ?length_app; cbn; split_and!; auto; lia.
    + destruct e; inversion Hh.
Qed.

Lemma set_map_set_map (a b : option (gmap func nat)) (st : state) :
  set_map a (set_map b st) = set_map a st.
Proof. by destruct st. Qed.

Lemma set_map_same (st : state) : set_map (functionsInTableMap st) st = st.
Proof. by destruct st. Qed.

Lemma getWasmTableEntry_ret (i : nat) (st st' : state) (e : option func) :
  getWasmTableEntry i st = (Ret e, st') -> wasmTable st !! i = Some e /\ st' = st.
Proof.
  unfold getWasmTableEntry. destruct (wasmTable st !! i) eqn:E; intros H; inversion H; subst; auto.
Qed.

Lemma map_set_ret (f : func) (i : nat) (st st' : state) (u : unit) :
  map_set f i st = (Ret u, st') ->
  exists m, functionsInTableMap st = Some m /\ st' = set_map (Some (<[f := i]> m)) st.
Proof.
  unfold map_set. destruct (functionsInTableMap st) as [m|]; intros H; inversion H; subst; eauto.
Qed.

(** The scan only adds keys to the map, and records every non-null entry of
    the scanned range. *)
Lemma updateTableMap_ret (offset count : nat) (st st' : state) (m : gmap func nat) (u : unit) :
  functionsInTableMap st = Some m ->
  updateTableMap offset count st = (Ret u, st') ->
  exists m', st' = set_map (Some m') st /\
    (forall g, is_Some (m !! g) -> is_Some (m' !! g)) /\
    (forall i g, (offset <= i < offset + count)%nat ->
                 wasmTable st !! i = Some (Some g) -> is_Some (m' !! g)).
Proof.
  revert offset st m. induction count as [|c IH]; intros offset st m Hm H.
  - cbn in H. inversion H; subst. exists m. split; [by rewrite <- Hm, set_map_same|].
    split; [done | intros; lia].
  - cbn [updateTableMap] in H. peel H. apply getWasmTableEntry_ret in Hstep as [Hi ->].
    peel H. destruct a as [g|].
    + apply map_set_ret in Hstep as (m0 & Hm0 & ->). rewrite Hm in Hm0. injection Hm0 as <-.
      apply IH with (m := <[g := offset]> m) in H as (m' & -> & Hk & Hr); [|done].
      exists m'. rewrite set_map_set_map. split; [done|]. split.
      * intros g' Hg'. apply Hk. destruct (decide (g = g')) as [->|Hne].
        -- by rewrite lookup_insert_eq.
        -- by rewrite lookup_insert_ne.
      * intros i g' Hrange Hig'. destruct (decide (i = offset)) as [->|Hne].
        -- rewrite Hi in Hig'. injection Hig' as ->. apply Hk. by rewrite lookup_insert_eq.
        -- apply (Hr i g'); [lia | done].
    + inversion Hstep; subst.
      apply IH with (m := m) in H as (m' & -> & Hk & Hr); [|done].
      exists m'. split; [done|]. split; [done|].
      intros i g' Hrange Hig'. destruct (decide (i = offset)) as [->|Hne].
      * by rewrite Hi in Hig'.
      * apply (Hr i g'); [lia | done].
Qed.

Lemma initTableMap_ret (st s1 : state) (u : unit) :
  initTableMap st = (Ret u, s1) ->
  exists m, s1 = set_map (Some m) st /\
    (forall g, already_registered st g -> is_Some (m !! g)) /\
    (forall m0, functionsInTableMap st = Some m0 -> m = m0).
Proof.
  unfold initTableMap, already_registered. rewrite sbind_sget.
  destruct (functionsInTableMap st) as [m0|] eqn:E; intros H.
  - inversion H; subst. exists m0. rewrite <- E, set_map_same. split; [done|].
    split; [done | congruence].
  - peel H. inversion Hstep; subst.
    apply updateTableMap_ret with (m := ∅) in H as (m' & -> & _ & Hr); [|done].
    exists m'. rewrite set_map_set_map. split; [done|]. split; [|done].
    intros g Hg. apply list_elem_of_lookup in Hg as [i Hi].
    apply (Hr i g); [|done]. apply lookup_lt_Some in Hi. cbn. lia.
Qed.

Lemma convert_ret (MEMORY64 : bool) (A : nat) (hw : bool) (f : func) (sig : option string)
  (st st' : state) (w : func) :
  convertJsFunctionToWasm MEMORY64 A hw f sig st = (Ret w, st') ->
  w = Wrapper (wrappersMade st) /\ st' = set_made (S (wrappersMade st)) st.
Proof.
  unfold convertJsFunctionToWasm, host_new_function, host_instantiate.
  destruct sig as [s|]; [|discriminate]. intros H. destruct hw; peel H;
    inversion Hstep; subst; case_match; inversion H; subst; auto.
Qed.

Lemma placeFunction_ret (MEMORY64 : bool) (A : nat) (hw : bool) (r : nat) (f : func)
  (sig : option string) (st st' : state) (u : unit) :
  placeFunction MEMORY64 A hw r f sig st = (Ret u, st') ->
  (r < length (wasmTable st))%nat /\
  exists v, (v = f \/ v = Wrapper (wrappersMade st)) /\
    st' = set_made (wrappersMade st') (set_table (<[r := Some v]> (wasmTable st)) st).
Proof.
  unfold placeFunction. intros H. apply scatch_ret_inv in H as [H|(e & s1 & He & H)].
  - apply setWasmTableEntry_ret in H as (Hr & _ & ->). split; [done|].
    exists f. split; [by left|]. by destruct st.
  - apply setWasmTableEntry_throw in He as ->.
    destruct e; try discriminate H.
    apply sbind_ret_inv in H as (a & s2 & Ha & H).
    unfold slift in Ha. injection Ha as _ <-.
    apply sbind_ret_inv in H as (w & s3 & Hc & H).
    apply convert_ret in Hc as [-> ->].
    apply setWasmTableEntry_ret in H as (Hr & _ & ->).
    destruct st; cbn in *. split; [done|].
    eexists. split; [by right | reflexivity].
Qed.

Lemma check_step_ret (A : nat) (f : func) (st st' : state) (u : unit) :
  (if decide (2 <= A)%nat then check_not_in_table A f else sret tt) st = (Ret u, st') ->
  st' = st.
Proof.
  case_decide; intros Hc.
  - unfold check_not_in_table in Hc. rewrite sbind_sget in Hc. unfold slift in Hc. by inversion Hc.
  - by inversion Hc.
Qed.

Lemma getEmptyTableSlot_set_map (st st' : state) (k : nat) :
  getEmptyTableSlot st = (Ret k, st') ->
  functionsInTableMap st' = functionsInTableMap st.
Proof. intros H. by destruct (getEmptyTableSlot_ret _ _ _ H) as [[_ ?]|(_ & _ & ?)]. Qed.

(** The two ways a successful [addFunction] runs: the map (after the
    first-use scan) already holds [f], or a slot is acquired and filled. *)
Lemma addFunction_ret_inv (MEMORY64 : bool) (A : nat) (hw : bool) (f : func)
  (sig : option string) (st st' : state) (r : nat) :
  addFunction MEMORY64 A hw f sig st = (Ret r, st') ->
  exists m, (forall g, already_registered st g -> is_Some (m !! g)) /\
    (forall m0, functionsInTableMap st = Some m0 -> m = m0) /\
    ((m !! f = Some r /\ st' = set_map (Some m) st)
     \/ (m !! f = None /\ exists s3 s4,
          getEmptyTableSlot (set_map (Some m) st) = (Ret r, s3) /\
          functionsInTableMap s3 = Some m /\
          placeFunction MEMORY64 A hw r f sig s3 = (Ret tt, s4) /\
          st' = set_map (Some (<[f := r]> m)) s4)).
Proof.
  unfold addFunction. intros H.
  apply sbind_ret_inv in H as (u & s1 & Hi & H).
  apply initTableMap_ret in Hi as (m & -> & Hreg & Hold).
  exists m. split; [done|]. split; [done|].
  rewrite sbind_sget in H. cbn [functionsInTableMap set_map mbind option_bind] in H.
  change (Some m ≫= lookup f) with (m !! f) in H.
  destruct (m !! f) as [i|] eqn:E.
  - apply sret_inv in H as [-> <-]. by left.
  - right. split; [done|].
    apply sbind_ret_inv in H as (u2 & s2 & Hc & H). apply check_step_ret in Hc as ->.
    apply sbind_ret_inv in H as (k & s3 & Hg & H).
    apply sbind_ret_inv in H as (u3 & s4 & Hp & H).
    apply sbind_ret_inv in H as (u4 & s5 & Hs & H).
    apply sret_inv in H as [-> <-].
    pose proof (getEmptyTableSlot_set_map _ _ _ Hg) as Hm3. cbn in Hm3.
    destruct u3.
    exists s3, s4. split; [done|]. split; [done|]. split; [done|].
    apply map_set_ret in Hs as (m4 & Hm4 & ->).
    apply placeFunction_ret in Hp as (_ & v & _ & Hs4).
    assert (Hm4' : functionsInTableMap s4 = Some m) by (rewrite Hs4; by destruct s3).
    rewrite Hm4 in Hm4'. by injection Hm4' as ->.
Qed.

Lemma addFunction_hit (MEMORY64 : bool) (A : nat) (hw : bool) (f : func)
  (sig : option string) (st : state) (m : gmap func nat) (r : nat) :
  functionsInTableMap st = Some m -> m !! f = Some r ->
  addFunction MEMORY64 A hw f sig st = (Ret r, st).
Proof.
  intros Hm Hr. unfold addFunction, initTableMap, sbind, sget. rewrite Hm.
  cbn. rewrite Hm. cbn. by rewrite Hr.
Qed.

Lemma addFunction_records (MEMORY64 : bool) (A : nat) (hw : bool) (f : func)
  (sig : option string) (st st' : state) (r : nat) :
  addFunction MEMORY64 A hw f sig st = (Ret r, st') ->
  exists m, functionsInTableMap st' = Some m /\ m !! f = Some r.
Proof.
  intros H. apply addFunction_ret_inv in H as (m & _ & _ & [[Hr ->]|(_ & s3 & s4 & _ & _ & _ & ->)]).
  - by exists m.
  - eexists. split; [reflexivity | apply lookup_insert_eq].
Qed.

(** C2: two calls of [addFunction] with the same callable and no
    [removeFunction] in between return the same slot, and the second call
    changes nothing, the Table included (the signature is ignored). *)
Theorem addFunction_twice (MEMORY64 : bool) (ASSERTIONS : nat) (hasWasmFunction : bool)
  (f : func) (sig sig' : option string) (st st1 : state) (r : nat) :
  addFunction MEMORY64 ASSERTIONS hasWasmFunction f sig st = (Ret r, st1) ->
  addFunction MEMORY64 ASSERTIONS hasWasmFunction f sig' st1 = (Ret r, st1).
Proof.
  intros H. apply addFunction_records in H as (m & Hm & Hr).
  by apply (addFunction_hit _ _ _ _ _ _ m).
Qed.

Lemma addFunction_twice_witness :
  addFunction false 1 false (JsFunc 4) (Some "vi") initial_state
    = (Ret 0%nat, snd (addFunction false 1 false (JsFunc 4) (Some "vi") initial_state)) /\
  addFunction false 1 false (JsFunc 4) (Some "vi")
    (snd (addFunction false 1 false (JsFunc 4) (Some "vi") initial_state))
    = (Ret 0%nat, snd (addFunction false 1 false (JsFunc 4) (Some "vi") initial_state)).
Proof.
  split; [vm_compute; reflexivity|].
  apply (addFunction_twice false 1 false (JsFunc 4) (Some "vi") (Some "vi") initial_state).
  vm_compute. reflexivity.
Defined.

Lemma lookup_app_None_ne (T : list (option func)) (i : nat) :
  i <> length T -> (T ++ [None]) !! i = T !! i.
Proof.
  intros Hi. destruct (decide (i < length T)%nat) as [Hlt|Hge].
  - by apply lookup_app_l.
  - rewrite !lookup_ge_None_2; [done | lia |]. rewrite length_app. cbn. lia.
Qed.

(** C10: a successful [addFunction] changes no Table entry other than the
    returned slot (the first-use scan only reads the Table), and when the
    callable already has a slot it changes no Table entry at all. *)
Theorem addFunction_frame (MEMORY64 : bool) (ASSERTIONS : nat) (hasWasmFunction : bool)
  (f : func) (sig : option string) (st st' : state) (r : nat) :
  addFunction MEMORY64 ASSERTIONS hasWasmFunction f sig st = (Ret r, st') ->
  (forall i, i <> r -> wasmTable st' !! i = wasmTable st !! i) /\
  (already_registered st f -> wasmTable st' = wasmTable st).
Proof.
  intros H.
  apply addFunction_ret_inv in H
    as (m & Hreg & _ & [[Hr ->]|(Hn & s3 & s4 & Hg & Hm3 & Hp & ->)]).
  - split; [by destruct st | by destruct st].
  - split.
    + intros i Hi. apply placeFunction_ret in Hp as (Hlt & v & _ & Hs4).
      rewrite Hs4. cbn [wasmTable set_map set_made set_table].
      rewrite list_lookup_insert_ne by congruence.
      destruct (getEmptyTableSlot_ret _ _ _ Hg) as [[HT _]|(HT & Hk & _)];
        rewrite HT; cbn [wasmTable set_map].
      * done.
      * apply lookup_app_None_ne. cbn in Hk. congruence.
    + intros Hf. apply Hreg in Hf. rewrite Hn in Hf. by destruct Hf.
Qed.

Lemma addFunction_frame_witness :
  addFunction false 1 true (JsFunc 2) (Some "vi") frame_example_state
    = (Ret 2%nat, snd (addFunction false 1 true (JsFunc 2) (Some "vi") frame_example_state)) /\
  (forall i, i <> 2%nat ->
     wasmTable (snd (addFunction false 1 true (JsFunc 2) (Some "vi") frame_example_state)) !! i
     = wasmTable frame_example_state !! i) /\
  (already_registered frame_example_state (JsFunc 2) ->
     wasmTable (snd (addFunction false 1 true (JsFunc 2) (Some "vi") frame_example_state)) = wasmTable frame_example_state).
Proof.
  split; [vm_compute; reflexivity|].
  apply (addFunction_frame false 1 true (JsFunc 2) (Some "vi") frame_example_state).
  vm_compute. reflexivity.
Defined.

Lemma sbind_ret_step {A B} (m : M A) (k : A -> M B) (st st' : state) (a : A) :
  m st = (Ret a, st') -> sbind m k st = k a st'.
Proof. unfold sbind. by intros ->. Qed.

Lemma sbind_throw_step {A B} (m : M A) (k : A -> M B) (st st' : state) (e : js_error) :
  m st = (Throw e, st') -> sbind m k st = (Throw e, st').
Proof. unfold sbind. by intros ->. Qed.

(** The scan succeeds on any in-range window, and the keys it leaves are the
    old ones and the window's non-null entries. *)
Lemma updateTableMap_total (offset count : nat) (st : state) (m : gmap func nat) :
  functionsInTableMap st = Some m ->
  (offset + count <= length (wasmTable st))%nat ->
  exists m', updateTableMap offset count st = (Ret tt, set_map (Some m') st) /\
    (forall g, is_Some (m' !! g) <->
       is_Some (m !! g) \/ exists i, (offset <= i < offset + count)%nat /\
                                    wasmTable st !! i = Some (Some g)).
Proof.
  revert offset st m. induction count as [|c IH]; intros offset st m Hm Hlen.
  - exists m. rewrite <- Hm, set_map_same. split; [reflexivity|].
    intros g. split; [by left | intros [?|(i & ? & _)]; [done | lia]].
  - assert (Ho : (offset < length (wasmTable st))%nat) by lia.
    apply lookup_lt_is_Some_2 in Ho as [e He].
    cbn [updateTableMap].
    rewrite (sbind_ret_step _ _ st st e) by (unfold getWasmTableEntry; by rewrite He).
    destruct e as [g|].
    + assert (Hs : map_set g offset st = (Ret tt, set_map (Some (<[g := offset]> m)) st))
        by (unfold map_set; by rewrite Hm).
      rewrite (sbind_ret_step _ _ _ _ _ Hs).
      destruct (IH (S offset) (set_map (Some (<[g := offset]> m)) st) (<[g := offset]> m))
        as (m' & Hrun & Hkeys); [done | cbn; lia |].
      exists m'. rewrite Hrun, set_map_set_map. split; [reflexivity|].
      intros g'. rewrite Hkeys. cbn [wasmTable set_map]. split.
      * intros [Hg'|(i & Hi & Hl)].
        -- destruct (decide (g = g')) as [->|Hne].
           ++ right. exists offset. split; [lia | done].
           ++ left. by rewrite lookup_insert_ne in Hg'.
        -- right. exists i. split; [lia | done].
      * intros [Hg'|(i & Hi & Hl)].
        -- left. destruct (decide (g = g')) as [->|Hne].
           ++ by rewrite lookup_insert_eq.
           ++ by rewrite lookup_insert_ne.
        -- destruct (decide (i = offset)) as [->|Hne].
           ++ left. rewrite He in Hl. injection Hl as ->. by rewrite lookup_insert_eq.
           ++ right. exists i. split; [lia | done].
    + rewrite (sbind_ret_step _ _ st st tt) by reflexivity.
      destruct (IH (S offset) st m) as (m' & Hrun & Hkeys); [done | lia |].
      exists m'. rewrite Hrun. split; [reflexivity|].
      intros g'. rewrite Hkeys. split.
      * intros [Hg'|(i & Hi & Hl)]; [by left | right; exists i; split; [lia | done]].
      * intros [Hg'|(i & Hi & Hl)]; [by left|].
        destruct (decide (i = offset)) as [->|Hne].
        -- by rewrite He in Hl.
        -- right. exists i. split; [lia | done].
Qed.

Lemma initTableMap_total (st : state) :
  exists m, initTableMap st = (Ret tt, set_map (Some m) st) /\
    (forall m0, functionsInTableMap st = Some m0 -> m = m0) /\
    (forall g, is_Some (m !! g) <-> already_registered st g).
Proof.
  unfold initTableMap, already_registered. rewrite sbind_sget.
  destruct (functionsInTableMap st) as [m0|] eqn:E.
  - exists m0. rewrite <- E, set_map_same. split; [reflexivity|]. split; [congruence | done].
  - rewrite (sbind_ret_step _ _ st (set_map (Some ∅) st) tt) by reflexivity.
    destruct (updateTableMap_total 0 (length (wasmTable st)) (set_map (Some ∅) st) ∅)
      as (m & Hrun & Hkeys); [done | cbn; lia |].
    exists m. rewrite Hrun, set_map_set_map. split; [reflexivity|]. split; [done|].
    intros g. rewrite Hkeys. cbn [wasmTable set_map]. split.
    + intros [[? Hx]|(i & _ & Hi)]; [by rewrite lookup_empty in Hx|].
      apply list_elem_of_lookup. eauto.
    + intros Hg. apply list_elem_of_lookup in Hg as [i Hi]. right. exists i.
      split; [|done]. apply lookup_lt_Some in Hi. lia.
Qed.

Lemma check_step_ok (A : nat) (f : func) (st : state) :
  Some f ∉ wasmTable st ->
  (if decide (2 <= A)%nat then check_not_in_table A f else sret tt) st = (Ret tt, st).
Proof.
  intros Hf. case_decide; [|reflexivity].
  unfold check_not_in_table. rewrite sbind_sget. unfold slift.
  replace (existsb (fun e => bool_decide (e = Some f)) (wasmTable st)) with false.
  - by rewrite js_assert_true.
  - symmetry. apply not_true_iff_false. intros Hx. apply existsb_exists in Hx as (e & He & Hb).
    apply bool_decide_eq_true in Hb. subst e. apply Hf. by apply list_elem_of_In.
Qed.

Lemma getEmptyTableSlot_grow (st : state) :
  freeTableIndexes st = [] ->
  match tableMaximum st with Some mx => (length (wasmTable st) + 1 <= mx)%nat | None => True end ->
  getEmptyTableSlot st = (Ret (length (wasmTable st)), set_table (wasmTable st ++ [None]) st).
Proof.
  intros Hfree Hmax. unfold getEmptyTableSlot. rewrite sbind_sget, Hfree. cbn [last].
  unfold sbind at 1, scatch, wasmTable_grow1.
  destruct (tableMaximum st) as [mx|]; [rewrite decide_True by done|];
    cbn; rewrite length_app; cbn; unfold sret; do 2 f_equal; lia.
Qed.

Lemma getEmptyTableSlot_full (st : state) (mx : nat) :
  freeTableIndexes st = [] -> tableMaximum st = Some mx ->
  (mx < length (wasmTable st) + 1)%nat ->
  getEmptyTableSlot st = (Throw (ThrownString growth_message), st).
Proof.
  intros Hfree Hmax Hfull. unfold getEmptyTableSlot. rewrite sbind_sget, Hfree. cbn [last].
  unfold sbind at 1, scatch, wasmTable_grow1. rewrite Hmax, decide_False by lia. reflexivity.
Qed.

Lemma getEmptyTableSlot_pop (st : state) (l : list nat) (k : nat) :
  freeTableIndexes st = l ++ [k] ->
  getEmptyTableSlot st = (Ret k, set_free l st).
Proof.
  intros Hfree. unfold getEmptyTableSlot. rewrite sbind_sget, Hfree, last_snoc.
  unfold sbind, smodify, sret. by rewrite removelast_last.
Qed.

(** C4 (amended): with an empty free list and a Table at its maximum,
    [getEmptyTableSlot] throws the string "Unable to grow wasm table. Set
    ALLOW_TABLE_GROWTH." in place of the [RangeError], and [addFunction] of a
    callable without a slot throws it too, leaving the Table and the free
    list as they were and the map unchanged, except that a call that finds
    the map not yet created leaves it created by the first-use scan. *)
Theorem addFunction_growth_refused (MEMORY64 : bool) (ASSERTIONS : nat)
  (hasWasmFunction : bool) (f : func) (sig : option string) (st : state) (mx : nat) :
  freeTableIndexes st = [] -> tableMaximum st = Some mx ->
  (mx < length (wasmTable st) + 1)%nat ->
  ~ already_registered st f -> Some f ∉ wasmTable st ->
  getEmptyTableSlot st = (Throw (ThrownString growth_message), st) /\
  exists m, addFunction MEMORY64 ASSERTIONS hasWasmFunction f sig st
              = (Throw (ThrownString growth_message), set_map (Some m) st) /\
            (forall m0, functionsInTableMap st = Some m0 -> m = m0).
Proof.
  intros Hfree Hmax Hfull Hreg Hin.
  split; [by apply (getEmptyTableSlot_full _ mx)|].
  destruct (initTableMap_total st) as (m & Hi & Hold & Hkeys).
  exists m. split; [|done].
  unfold addFunction. rewrite (sbind_ret_step _ _ _ _ _ Hi), sbind_sget.
  cbn [functionsInTableMap set_map]. change (Some m ≫= lookup f) with (m !! f).
  destruct (m !! f) as [i|] eqn:E.
  - exfalso. apply Hreg, Hkeys. by rewrite E.
  - rewrite (sbind_ret_step _ _ _ _ _
               (check_step_ok _ _ (set_map (Some m) st) ltac:(by destruct st))).
    rewrite (sbind_throw_step _ _ _ _ _
               (getEmptyTableSlot_full (set_map (Some m) st) mx ltac:(by destruct st)
                                           ltac:(by destruct st) ltac:(by destruct st))).
    reflexivity.
Qed.

Lemma addFunction_growth_refused_witness :
  (freeTableIndexes growth_example_state = [] /\
   tableMaximum growth_example_state = Some 1%nat /\
   (1 < length (wasmTable growth_example_state) + 1)%nat /\
   ~ already_registered growth_example_state (WasmFunc 2) /\
   Some (WasmFunc 2) ∉ wasmTable growth_example_state) /\
  getEmptyTableSlot growth_example_state
    = (Throw (ThrownString growth_message), growth_example_state) /\
  exists m, addFunction false 2 false (WasmFunc 2) None growth_example_state
              = (Throw (ThrownString growth_message), set_map (Some m) growth_example_state) /\
            (forall m0, functionsInTableMap growth_example_state = Some m0 -> m = m0).
Proof.
  assert (Hn : Some (WasmFunc 2) ∉ wasmTable growth_example_state).
  { cbn. rewrite elem_of_cons, elem_of_nil. intros [H|H]; [discriminate H | done]. }
  assert (Hr : ~ already_registered growth_example_state (WasmFunc 2)) by exact Hn.
  split; [split_and!; first [reflexivity | cbn; lia | done]|].
  apply (addFunction_growth_refused false 2 false (WasmFunc 2) None growth_example_state 1);
    first [reflexivity | cbn; lia | done].
Defined.

(** C4 (counterexample): the failing call on a state whose map is not yet
    created leaves the map created and filled by the scan. *)
Lemma addFunction_growth_refused_creates_map :
  fst (addFunction false 0 false (WasmFunc 2) None growth_example_state)
    = Throw (ThrownString growth_message) /\
  freeTableIndexes (snd (addFunction false 0 false (WasmFunc 2) None growth_example_state)) = [] /\
  functionsInTableMap (snd (addFunction false 0 false (WasmFunc 2) None growth_example_state))
    <> functionsInTableMap growth_example_state.
Proof.
  split; [vm_compute; reflexivity|]. split; [vm_compute; reflexivity|].
  vm_compute. discriminate.
Qed.

Lemma sigToWasmTypes_valid_ret (MEMORY64 : bool) (A : nat) (c : ascii) (rest : string) :
  valid_sig MEMORY64 (String c rest) = true ->
  sigToWasmTypes MEMORY64 A (String c rest)
  = Ret {| parameters := map (typeNames MEMORY64) (list_ascii_of_string rest);
           results := if decide (c = "v"%char) then [] else [typeNames MEMORY64 c] |}.
Proof.
  intros Hv. unfold valid_sig in Hv. apply andb_true_iff in Hv as [_ Hp].
  unfold sigToWasmTypes. by rewrite sig_params_loop_valid.
Qed.

Lemma convert_ok (MEMORY64 : bool) (A : nat) (hw : bool) (f : func) (s : string) (st : state) :
  valid_sig MEMORY64 s = true -> (String.length s <= 1001)%nat ->
  convertJsFunctionToWasm MEMORY64 A hw f (Some s) st
  = (Ret (Wrapper (wrappersMade st)), set_made (S (wrappersMade st)) st).
Proof.
  intros Hv Hl. destruct s as [|c rest]; [discriminate|].
  unfold convertJsFunctionToWasm. destruct hw.
  - rewrite (sbind_ret_step _ _ st st _) by (unfold slift; by rewrite sigToWasmTypes_valid_ret).
    unfold host_new_function. cbn [parameters results].
    replace (forallb _ _ && _)%bool with true; [reflexivity|].
    symmetry. apply andb_true_iff. split.
    + apply forallb_forall. intros o Ho. apply bool_decide_eq_true.
      apply list_elem_of_In in Ho. apply elem_of_app in Ho as [Ho|Ho].
      * pose proof Hv as Hv'. unfold valid_sig in Hv'. apply andb_true_iff in Hv' as [_ Hp].
        apply forallb_valid_is_Some in Hp. rewrite Forall_forall in Hp. by apply Hp.
      * unfold valid_sig in Hv. apply andb_true_iff in Hv as [Hc _].
        case_decide; [by apply elem_of_nil in Ho|].
        apply list_elem_of_singleton in Ho as ->.
        apply orb_true_iff in Hc as [Hc|Hc]; apply bool_decide_eq_true in Hc; done.
    + apply Nat.leb_le. rewrite length_map, length_list_ascii. cbn in Hl. lia.
  - rewrite (sbind_ret_step _ _ st st _)
      by (unfold slift; rewrite module_bytes_ok; [reflexivity | done | cbn in Hl; lia]).
    unfold host_instantiate. rewrite Hv. cbn [andb].
    replace (Nat.leb _ _) with true by (symmetry; by apply Nat.leb_le). reflexivity.
Qed.

Lemma placeFunction_ok (MEMORY64 : bool) (A : nat) (hw : bool) (r : nat) (f : func)
  (sig : option string) (st : state) :
  (r < length (wasmTable st))%nat -> registrable MEMORY64 f sig ->
  exists v n, placeFunction MEMORY64 A hw r f sig st
              = (Ret tt, set_made n (set_table (<[r := Some v]> (wasmTable st)) st)) /\
            (v = f \/ exists j, v = Wrapper j).
Proof.
  intros Hr Hreg. unfold placeFunction, scatch.
  destruct (is_wasm_function f) eqn:Ew.
  - replace (setWasmTableEntry r f st)
      with (@Ret unit tt, set_table (<[r := Some f]> (wasmTable st)) st)
      by (unfold setWasmTableEntry; rewrite Ew; cbn; by rewrite decide_True).
    exists f, (wrappersMade st). split; [by destruct st | by left].
  - destruct Hreg as [Hw|(s & -> & Hv & Hl)]; [congruence|].
    replace (setWasmTableEntry r f st) with (@Throw unit TypeError, st)
      by (unfold setWasmTableEntry; by rewrite Ew).
    cbv beta iota.
    rewrite (sbind_ret_step _ _ st st tt)
      by (unfold slift; rewrite bool_decide_eq_true_2 by eauto; by rewrite js_assert_true).
    rewrite (sbind_ret_step _ _ _ _ _ (convert_ok _ _ _ _ _ _ Hv Hl)).
    unfold setWasmTableEntry. cbn [is_wasm_function negb wasmTable set_made].
    rewrite decide_True by (destruct st; cbn in *; lia).
    exists (Wrapper (wrappersMade st)), (S (wrappersMade st)).
    split; [by destruct st | right; eauto].
Qed.

(** A callable without a slot gets the slot [getEmptyTableSlot] returns,
    filled with itself or its wrapper, and recorded in the map. *)
Lemma addFunction_miss_ok (MEMORY64 : bool) (A : nat) (hw : bool) (f : func)
  (sig : option string) (st s3 : state) (m : gmap func nat) (k : nat) :
  functionsInTableMap st = Some m -> m !! f = None -> Some f ∉ wasmTable st ->
  registrable MEMORY64 f sig ->
  getEmptyTableSlot st = (Ret k, s3) -> (k < length (wasmTable s3))%nat ->
  functionsInTableMap s3 = Some m ->
  exists v n, addFunction MEMORY64 A hw f sig st
              = (Ret k, mkState (<[k := Some v]> (wasmTable s3)) (tableMaximum s3)
                                (freeTableIndexes s3) (Some (<[f := k]> m)) n) /\
            (v = f \/ exists j, v = Wrapper j).
Proof.
  intros Hm Hf Hin Hreg Hg Hk Hm3.
  destruct (initTableMap_total st) as (m' & Hi & Hold & _).
  rewrite (Hold m Hm), <- Hm, set_map_same in Hi.
  unfold addFunction. rewrite (sbind_ret_step _ _ _ _ _ Hi), sbind_sget, Hm.
  change (Some m ≫= lookup f) with (m !! f). rewrite Hf.
  rewrite (sbind_ret_step _ _ _ _ _ (check_step_ok _ _ st Hin)).
  rewrite (sbind_ret_step _ _ _ _ _ Hg).
  destruct (placeFunction_ok MEMORY64 A hw k f sig s3 Hk Hreg) as (v & n & Hp & Hv).
  rewrite (sbind_ret_step _ _ _ _ _ Hp).
  exists v, n. split; [|done].
  unfold sbind, map_set. destruct s3; cbn in *. rewrite Hm3. reflexivity.
Qed.

Lemma addFunction_empty_init (MEMORY64 : bool) (A : nat) (hw : bool) (f : func)
  (sig : option string) (st : state) :
  wasmTable st = [] -> functionsInTableMap st = None ->
  addFunction MEMORY64 A hw f sig st = addFunction MEMORY64 A hw f sig (set_map (Some ∅) st).
Proof.
  intros Ht Hm. destruct st as [t mx fr mp n]; cbn in *; subst t mp. reflexivity.
Qed.

Lemma removeFunction_ok (index : nat) (st : state) (m : gmap func nat) (e : option func) :
  functionsInTableMap st = Some m -> wasmTable st !! index = Some e ->
  removeFunction index st
  = (Ret tt, set_free (freeTableIndexes st ++ [index])
               (set_map (Some (match e with Some g => delete g m | None => m end)) st)).
Proof.
  intros Hm He. unfold removeFunction. rewrite sbind_sget, Hm.
  rewrite (sbind_ret_step _ _ st st e) by (unfold getWasmTableEntry; by rewrite He).
  unfold sbind, smodify. rewrite Hm. destruct e; by destruct st.
Qed.

Lemma not_in_two (f v1 v2 g1 g2 : func) :
  not_wrapper f -> f <> g1 -> f <> g2 ->
  (v1 = g1 \/ exists j, v1 = Wrapper j) -> (v2 = g2 \/ exists j, v2 = Wrapper j) ->
  Some f ∉ [Some v1; Some v2].
Proof.
  intros Hw H1 H2 Hv1 Hv2 Hin.
  repeat rewrite elem_of_cons in Hin. rewrite elem_of_nil in Hin.
  destruct Hin as [Hin|[Hin|[]]]; injection Hin as ->;
    [destruct Hv1 as [->|[j ->]] | destruct Hv2 as [->|[j ->]]]; done.
Qed.

(** C3: from an empty Table that can grow by two entries, an empty free
    list and no map, two distinct callables get slots that increase; after
    the first slot is released a third callable gets that slot back from
    the free list, and the Table does not grow. *)
Lemma register_reuses_released_slot (MEMORY64 : bool) (A : nat) (hw : bool)
  (mx : option nat) (n0 : nat) (f1 f2 f3 : func) (sig1 sig2 sig3 : option string) :
  match mx with Some k => (2 <= k)%nat | None => True end ->
  f1 <> f2 -> f3 <> f1 -> f3 <> f2 -> not_wrapper f2 -> not_wrapper f3 ->
  registrable MEMORY64 f1 sig1 -> registrable MEMORY64 f2 sig2 ->
  registrable MEMORY64 f3 sig3 ->
  exists r1 st1 r2 st2 st3 r3 st4,
    addFunction MEMORY64 A hw f1 sig1 (mkState [] mx [] None n0) = (Ret r1, st1) /\
    addFunction MEMORY64 A hw f2 sig2 st1 = (Ret r2, st2) /\
    (r1 < r2)%nat /\
    removeFunction r1 st2 = (Ret tt, st3) /\
    freeTableIndexes st3 = [r1] /\
    addFunction MEMORY64 A hw f3 sig3 st3 = (Ret r3, st4) /\
    r3 = r1 /\ freeTableIndexes st4 = [] /\
    length (wasmTable st4) = length (wasmTable st2).
Proof.
  intros Hmx H12 H31 H32 Hw2 Hw3 Hr1 Hr2 Hr3.
  rewrite addFunction_empty_init by reflexivity.
  (* first registration: the Table grows to one entry *)
  destruct (addFunction_miss_ok MEMORY64 A hw f1 sig1 (mkState [] mx [] (Some ∅) n0)
              (set_table [None] (mkState [] mx [] (Some ∅) n0)) ∅ 0)
    as (v1 & n1 & Hadd1 & Hv1); try done.
  { by apply not_elem_of_nil. }
  { apply (getEmptyTableSlot_grow (mkState [] mx [] (Some ∅) n0)); [done|].
    destruct mx; cbn; lia. }
  { cbn; lia. }
  cbn in Hadd1.
  (* second registration: the Table grows to two entries *)
  set (st1 := mkState [Some v1] mx [] (Some (<[f1 := 0%nat]> ∅)) n1) in Hadd1.
  destruct (addFunction_miss_ok MEMORY64 A hw f2 sig2 st1 (set_table [Some v1; None] st1)
              (<[f1 := 0%nat]> ∅) 1)
    as (v2 & n2 & Hadd2 & Hv2); try done.
  { rewrite lookup_insert_ne by congruence. apply lookup_empty. }
  { cbn. intros Hin. apply list_elem_of_singleton in Hin. injection Hin as ->.
    destruct Hv1 as [->|[j ->]]; done. }
  { apply (getEmptyTableSlot_grow st1); [done|]. destruct mx; cbn in *; lia. }
  { cbn; lia. }
  cbn in Hadd2.
  set (m2 := <[f2 := 1%nat]> (<[f1 := 0%nat]> ∅) : gmap func nat) in Hadd2.
  set (st2 := mkState [Some v1; Some v2] mx [] (Some m2) n2) in Hadd2.
  (* release of the first slot *)
  pose proof (removeFunction_ok 0 st2 m2 (Some v1) eq_refl eq_refl) as Hrem.
  cbn in Hrem.
  set (st3 := mkState [Some v1; Some v2] mx [0%nat] (Some (delete v1 m2)) n2) in Hrem.
  (* third registration: the slot comes from the free list *)
  destruct (addFunction_miss_ok MEMORY64 A hw f3 sig3 st3 (set_free [] st3)
              (delete v1 m2) 0)
    as (v3 & n3 & Hadd3 & Hv3).
  { reflexivity. }
  { apply lookup_delete_None. right. unfold m2.
    rewrite !lookup_insert_ne by congruence. apply lookup_empty. }
  { cbn. by apply (not_in_two f3 v1 v2 f1 f2). }
  { exact Hr3. }
  { by apply (getEmptyTableSlot_pop st3 [] 0). }
  { cbn; lia. }
  { reflexivity. }
  eexists _, _, _, _, _, _, _. split_and!; [exact Hadd1 | exact Hadd2 | lia | exact Hrem
    | reflexivity | exact Hadd3 | reflexivity | reflexivity | ].
  cbn. reflexivity.
Qed.

Lemma register_reuses_released_slot_witness :
  exists r1 st1 r2 st2 st3 r3 st4,
    addFunction false 2 false (JsFunc 1) (Some "vi") (mkState [] (Some 2%nat) [] None 0) = (Ret r1, st1) /\
    addFunction false 2 false (WasmFunc 2) None st1 = (Ret r2, st2) /\
    (r1 < r2)%nat /\
    removeFunction r1 st2 = (Ret tt, st3) /\
    freeTableIndexes st3 = [r1] /\
    addFunction false 2 false (JsFunc 3) (Some "ii") st3 = (Ret r3, st4) /\
    r3 = r1 /\ freeTableIndexes st4 = [] /\
    length (wasmTable st4) = length (wasmTable st2).
Proof.
  apply (register_reuses_released_slot false 2 false (Some 2%nat) 0
           (JsFunc 1) (WasmFunc 2) (JsFunc 3) (Some "vi") None (Some "ii"));
    cbn; try lia; try discriminate; try exact I.
  - right. exists "vi". split_and!; [reflexivity | vm_compute; reflexivity | cbn; lia].
  - left. reflexivity.
  - right. exists "ii". split_and!; [reflexivity | vm_compute; reflexivity | cbn; lia].
Defined.

(** C1 (divergence): removing the slot of a JS function placed through a
    wrapper deletes the Table entry (the wrapper) from the map, not the
    registered function: the map keeps recording the JS function at the
    released slot.  The slot is pushed on the free list and the Table entry
    stays. *)
Lemma removeFunction_keeps_js_entry :
  fst (addFunction false 1 false (JsFunc 0) (Some "v") initial_state) = Ret 0%nat /\
  wasmTable st_js_added = [Some (Wrapper 0)] /\
  removeFunction 0 st_js_added = (Ret tt, st_js_removed) /\
  (functionsInTableMap st_js_removed ≫= lookup (JsFunc 0)) = Some 0%nat /\
  freeTableIndexes st_js_removed = [0%nat] /\
  wasmTable st_js_removed = wasmTable st_js_added.
Proof. vm_compute. split_and!; reflexivity. Qed.

(** C9 (divergence): after that release a wasm function takes the recycled
    slot 0, and registering the JS function again returns slot 0 from its
    stale map entry without placing anything: both callables are recorded
    at slot 0, which holds the wasm function. *)
Lemma stale_entry_shares_slot :
  addFunction false 1 false (WasmFunc 5) None st_js_removed = (Ret 0%nat, st_slot_reused) /\
  addFunction false 1 false (JsFunc 0) (Some "v") st_slot_reused = (Ret 0%nat, st_slot_reused) /\
  (functionsInTableMap st_slot_reused ≫= lookup (JsFunc 0)) = Some 0%nat /\
  (functionsInTableMap st_slot_reused ≫= lookup (WasmFunc 5)) = Some 0%nat /\
  wasmTable st_slot_reused = [Some (WasmFunc 5)].
Proof. vm_compute. split_and!; reflexivity. Qed.

(** ** Further properties of the code *)

Lemma uleb128_decode_shorter (bs r : list Z) (v : Z) :
  uleb128_decode bs = Some (v, r) -> (length r < length bs)%nat.
Proof.
  revert v r. induction bs as [|b bs IH]; intros v r; cbn; [discriminate|].
  destruct (b <? 128); [intros [= _ <-]; lia|].
  destruct (uleb128_decode bs) as [[v' r']|] eqn:E; [|discriminate].
  intros [= _ <-]. specialize (IH _ _ eq_refl). lia.
Qed.

Lemma land_127_high (x : Z) : 0 <= x < 128 -> Z.land (x + 128) 127 = x.
Proof.
  intros Hx. change 127 with (Z.ones 7). rewrite Z.land_ones by lia.
  change (2 ^ 7) with 128.
  replace (x + 128) with (x + 1 * 128) by lia. rewrite Z.mod_add by lia.
  by apply Z.mod_small.
Qed.

(** X1: round trip of [$uleb128Encode].  For [0 <= n < 16384] it appends
    bytes [bs] to [target], and LEB128-decoding [bs] followed by any [rest]
    gives back [n] and [rest]. *)
Lemma uleb128Encode_decode (ASSERTIONS : nat) (n : Z) (target : list (option Z))
  (rest : list Z) :
  0 <= n < 16384 ->
  exists bs, uleb128Encode ASSERTIONS n target = Ret (target ++ map Some bs) /\
    Forall (fun z => 0 <= z < 256) bs /\
    uleb128_decode (bs ++ rest) = Some (n, rest).
Proof.
  intros Hn. exists (uleb128_spec n).
  split; [by apply uleb128Encode_small|].
  split; [by apply uleb128_spec_bytes|].
  rewrite uleb128_spec_small by lia.
  destruct (n <? 128) eqn:E; cbn; [by rewrite E|].
  apply Z.ltb_ge in E.
  assert (0 <= n mod 128 < 128) by (apply Z.mod_pos_bound; lia).
  assert (0 <= n / 128 < 128) by (split; [apply Z.div_pos | apply Z.div_lt_upper_bound]; lia).
  replace (n mod 128 + 128 <? 128) with false by (symmetry; apply Z.ltb_ge; lia).
  replace (n / 128 <? 128) with true by (symmetry; apply Z.ltb_lt; lia).
  rewrite land_127_high by lia. do 2 f_equal.
  pose proof (Z.div_mod n 128). lia.
Qed.

(** X2: [$uleb128Encode] past its range.  For [n >= 16384] a build with
    assertions throws; without assertions it appends two bytes that do not
    decode to [n], whatever follows them. *)
Lemma uleb128Encode_out_of_range (ASSERTIONS : nat) (n : Z) (target : list (option Z)) :
  16384 <= n ->
  (ASSERTIONS <> 0%nat -> uleb128Encode ASSERTIONS n target = Throw (AssertionError "")) /\
  exists b0 b1, uleb128Encode 0 n target = Ret (target ++ [Some b0; Some b1]) /\
    forall rest, uleb128_decode (to_uint8 [Some b0; Some b1] ++ rest) <> Some (n, rest).
Proof.
  intros Hn. split.
  - intros HA. unfold uleb128Encode, js_assert.
    replace (n <? 16384) with false by (symmetry; apply Z.ltb_ge; lia).
    destruct ASSERTIONS; [done|]. reflexivity.
  - unfold uleb128Encode. rewrite js_assert_off. cbn [obind].
    replace (n <? 128) with false by (symmetry; apply Z.ltb_ge; lia).
    eexists _, _. split; [reflexivity|]. intros rest.
    assert (Hm : 0 <= n mod 128 < 128) by (apply Z.mod_pos_bound; lia).
    rewrite toInt32_small by lia. rewrite lor_128 by lia.
    cbn [to_uint8 map app uleb128_decode].
    rewrite (Z.mod_small (n mod 128 + 128)) by lia.
    replace (n mod 128 + 128 <? 128) with false by (symmetry; apply Z.ltb_ge; lia).
    rewrite land_127_high by lia.
    set (b1 := Z.shiftr (toInt32 n) 7 mod 256).
    assert (0 <= b1 < 256) by (apply Z.mod_pos_bound; lia).
    destruct (b1 <? 128) eqn:E.
    + apply Z.ltb_lt in E. intros [= Hv]. lia.
    + destruct (uleb128_decode rest) as [[v r]|] eqn:Ed; [|discriminate].
      apply uleb128_decode_shorter in Ed. intros [= _ ->]. lia.
Qed.

Lemma param_keys_agree (MEMORY64 : bool) (c : ascii) :
  bool_decide (is_Some (typeNames MEMORY64 c)) = bool_decide (is_Some (typeCodes MEMORY64 c)).
Proof.
  unfold typeNames, typeCodes.
  repeat case_decide; subst; try discriminate; try reflexivity.
Qed.

Lemma push_param_codes_rejects (MEMORY64 : bool) (A : nat) (rest : string)
  (acc : list (option wasm_type)) (body : list (option Z)) (e : js_error) :
  sig_params_loop MEMORY64 A rest acc = Throw e ->
  push_param_codes MEMORY64 A rest body = Throw e.
Proof.
  revert acc body. induction rest as [|c rest IH]; intros acc body; cbn; [discriminate|].
  rewrite param_keys_agree.
  destruct (js_assert A _ _); cbn; [apply IH | congruence].
Qed.

(** X3: a signature [sigToWasmTypes] rejects (a bad character under
    assertions) makes [$convertJsFunctionToWasm] throw that same error and
    leave the state unchanged, with or without [WebAssembly.Function]. *)
Lemma convert_rejects_alike (MEMORY64 : bool) (A : nat) (f : func) (c : ascii)
  (params : string) (e : js_error) (st : state) :
  Z.of_nat (String.length params) < 16384 ->
  sigToWasmTypes MEMORY64 A (String c params) = Throw e ->
  convertJsFunctionToWasm MEMORY64 A true f (Some (String c params)) st = (Throw e, st) /\
  convertJsFunctionToWasm MEMORY64 A false f (Some (String c params)) st = (Throw e, st).
Proof.
  intros Hlen Hs. split.
  - unfold convertJsFunctionToWasm. by apply (sbind_throw_step _ _ st st e); unfold slift; rewrite Hs.
  - unfold convertJsFunctionToWasm. apply (sbind_throw_step _ _ st st e). unfold slift.
    unfold sigToWasmTypes in Hs. cbn [sig_slice1] in Hs.
    destruct (sig_params_loop MEMORY64 A params []) eqn:Ep; [discriminate|].
    cbn in Hs. injection Hs as ->.
    unfold module_bytes, fallback_bytes. cbv zeta. cbn [sig_slice1].
    rewrite uleb128Encode_small by lia. cbn [obind].
    by rewrite (push_param_codes_rejects _ _ _ _ _ _ Ep).
Qed.

(** X4: [$removeFunction] throws a [TypeError] before the map exists, and a
    [RangeError] for an index past the end of the Table, changing nothing. *)
Lemma removeFunction_errors (index : nat) (st : state) :
  (functionsInTableMap st = None -> removeFunction index st = (Throw TypeError, st)) /\
  (is_Some (functionsInTableMap st) -> (length (wasmTable st) <= index)%nat ->
   removeFunction index st = (Throw RangeError, st)).
Proof.
  split.
  - intros Hm. unfold removeFunction. by rewrite sbind_sget, Hm.
  - intros [m Hm] Hi. unfold removeFunction. rewrite sbind_sget, Hm.
    apply (sbind_throw_step _ _ st st RangeError).
    unfold getWasmTableEntry. rewrite lookup_ge_None_2 by lia. reflexivity.
Qed.

Lemma getEmptyTableSlot_cases (st st' : state) (k : nat) :
  getEmptyTableSlot st = (Ret k, st') ->
  (exists l, freeTableIndexes st = l ++ [k] /\ st' = set_free l st) \/
  (freeTableIndexes st = [] /\ k = length (wasmTable st) /\
   st' = set_table (wasmTable st ++ [None]) st).
Proof.
  unfold getEmptyTableSlot. rewrite sbind_sget.
  destruct (last (freeTableIndexes st)) as [j|] eqn:El.
  - intros H. peel H. inversion Hstep; subst. inversion H; subst. left.
    apply last_Some in El as [l ->]. exists l. by rewrite removelast_last.
  - apply last_None in El. intros H. peel H.
    apply scatch_ret_inv in Hstep as [Hg|(e & s1 & Hg & Hh)].
    + unfold wasmTable_grow1 in Hg. rewrite sbind_sget in H. inversion H; subst.
      right. destruct (tableMaximum st) as [mx|]; [case_decide|];
        inversion Hg; subst; cbn; rewrite ?length_app; cbn; split_and!; auto; lia.
    + destruct e; inversion Hh.
Qed.

Lemma getEmptyTableSlot_made (st st' : state) (o : outcome nat) :
  getEmptyTableSlot st = (o, st') -> wrappersMade st' = wrappersMade st.
Proof.
  unfold getEmptyTableSlot. rewrite sbind_sget.
  destruct (last (freeTableIndexes st)); intros H.
  - unfold sbind, smodify, sret in H. by inversion H.
  - unfold sbind at 1, scatch, wasmTable_grow1 in H.
    destruct (tableMaximum st) as [mx|]; [case_decide|];
      unfold sbind, sget, sret, sthrow in H; inversion H; reflexivity.
Qed.

Lemma placeFunction_ret_exact (MEMORY64 : bool) (A : nat) (hw : bool) (r : nat) (f : func)
  (sig : option string) (st st' : state) (u : unit) :
  placeFunction MEMORY64 A hw r f sig st = (Ret u, st') ->
  (r < length (wasmTable st))%nat /\
  st' = set_made (if is_wasm_function f then wrappersMade st else S (wrappersMade st))
          (set_table (<[r := Some (if is_wasm_function f then f else Wrapper (wrappersMade st))]>
                        (wasmTable st)) st).
Proof.
  unfold placeFunction, scatch. destruct (is_wasm_function f) eqn:Ew.
  - unfold setWasmTableEntry. rewrite Ew. cbn.
    case_decide as Hd; intros Hr; inversion Hr; subst. split; [done|]. by destruct st.
  - replace (setWasmTableEntry r f st) with (@Throw unit TypeError, st)
      by (unfold setWasmTableEntry; by rewrite Ew).
    cbv beta iota. intros H. peel H. unfold slift in Hstep.
    destruct (js_assert _ _ _); inversion Hstep; subst; clear Hstep.
    peel H. apply convert_ret in Hstep as [-> ->].
    unfold setWasmTableEntry in H. cbn in H.
    case_decide as Hd; inversion H; subst. split; [done|]. by destruct st0.
Qed.

Lemma addFunction_miss_ret (MEMORY64 : bool) (A : nat) (hw : bool) (f : func)
  (sig : option string) (st st' : state) (r : nat) :
  ~ already_registered st f ->
  addFunction MEMORY64 A hw f sig st = (Ret r, st') ->
  exists m s3 s4, m !! f = None /\
    getEmptyTableSlot (set_map (Some m) st) = (Ret r, s3) /\
    placeFunction MEMORY64 A hw r f sig s3 = (Ret tt, s4) /\
    st' = set_map (Some (<[f := r]> m)) s4.
Proof.
  intros Hreg H.
  destruct (initTableMap_total st) as (m & Hi & _ & Hkeys).
  assert (Hf : m !! f = None) by (apply eq_None_not_Some; by rewrite Hkeys).
  unfold addFunction in H. rewrite (sbind_ret_step _ _ _ _ _ Hi), sbind_sget in H.
  cbn [functionsInTableMap set_map] in H. change (Some m ≫= lookup f) with (m !! f) in H.
  rewrite Hf in H.
  apply sbind_ret_inv in H as (u0 & s1 & Hc & H). apply check_step_ret in Hc as ->.
  apply sbind_ret_inv in H as (k & s3 & Hg & H).
  apply sbind_ret_inv in H as (u1 & s4 & Hp & H). destruct u1.
  apply sbind_ret_inv in H as (u2 & s5 & Hs5 & H).
  apply map_set_ret in Hs5 as (m' & Hm' & ->).
  apply sret_inv in H as [-> <-].
  apply getEmptyTableSlot_set_map in Hg as Hgm.
  apply placeFunction_ret_exact in Hp as Hpe. destruct Hpe as [_ Hs].
  assert (m' = m) as ->.
  { rewrite Hs in Hm'. cbn in Hm'. rewrite Hgm in Hm'. cbn in Hm'. congruence. }
  exists m, s3, s4. by split_and!.
Qed.

(** X5: when [$addFunction] succeeds for a callable not yet registered,
    the returned slot lies inside the Table, the map records the callable at
    it, and the slot holds the callable itself (wasm) or a new wrapper (JS);
    only a JS function creates a wrapper. *)
Lemma addFunction_new_slot (MEMORY64 : bool) (A : nat) (hw : bool) (f : func)
  (sig : option string) (st st' : state) (r : nat) :
  ~ already_registered st f ->
  addFunction MEMORY64 A hw f sig st = (Ret r, st') ->
  (r < length (wasmTable st'))%nat /\
  (functionsInTableMap st' ≫= lookup f) = Some r /\
  wasmTable st' !! r
    = Some (Some (if is_wasm_function f then f else Wrapper (wrappersMade st))) /\
  wrappersMade st'
    = (if is_wasm_function f then wrappersMade st else S (wrappersMade st)).
Proof.
  intros Hreg H.
  apply addFunction_miss_ret in H as (m & s3 & s4 & _ & Hg & Hp & ->); [|done].
  apply getEmptyTableSlot_made in Hg as Hmade. cbn in Hmade.
  apply placeFunction_ret_exact in Hp as [Hr ->].
  rewrite Hmade. cbn.
  split_and!.
  - by rewrite length_insert.
  - apply lookup_insert_eq.
  - by apply list_lookup_insert_eq.
  - reflexivity.
Qed.


Lemma updateTableMap_last (offset count : nat) (st : state) (m0 : gmap func nat) :
  functionsInTableMap st = Some m0 ->
  (offset + count <= length (wasmTable st))%nat ->
  exists m', updateTableMap offset count st = (Ret tt, set_map (Some m') st) /\
    forall g i, m' !! g = Some i <->
      ((offset <= i < offset + count)%nat /\ wasmTable st !! i = Some (Some g) /\
       forall j, (i < j < offset + count)%nat -> wasmTable st !! j <> Some (Some g)) \/
      (m0 !! g = Some i /\
       forall j, (offset <= j < offset + count)%nat -> wasmTable st !! j <> Some (Some g)).
Proof.
  revert offset st m0. induction count as [|c IH]; intros offset st m0 Hm Hlen.
  - exists m0. rewrite <- Hm, set_map_same. split; [reflexivity|].
    intros g i. split; [intros H; right; split; [done | intros; lia]|].
    intros [(? & _)|(? & _)]; [lia | done].
  - assert (Ho : (offset < length (wasmTable st))%nat) by lia.
    apply lookup_lt_is_Some_2 in Ho as [e He].
    cbn [updateTableMap].
    rewrite (sbind_ret_step _ _ st st e) by (unfold getWasmTableEntry; by rewrite He).
    destruct e as [g0|].
    + assert (Hs : map_set g0 offset st = (Ret tt, set_map (Some (<[g0 := offset]> m0)) st))
        by (unfold map_set; by rewrite Hm).
      rewrite (sbind_ret_step _ _ _ _ _ Hs).
      destruct (IH (S offset) (set_map (Some (<[g0 := offset]> m0)) st) (<[g0 := offset]> m0))
        as (m' & Hrun & Hk); [done | cbn; lia |].
      exists m'. rewrite Hrun, set_map_set_map. split; [reflexivity|].
      intros g i. rewrite Hk. cbn [wasmTable set_map]. split; cbn [wasmTable set_map] in *.
      * intros [(Hi & Hg & Hj)|(Hm1 & Hj)].
        -- left. split_and!; try done; try lia; intros j Hj'; apply Hj; lia.
        -- destruct (decide (g = g0)) as [->|Hne].
           ++ rewrite lookup_insert_eq in Hm1. injection Hm1 as <-.
              left. split_and!; try done; try lia; intros j Hj'; apply Hj; lia.
           ++ rewrite lookup_insert_ne in Hm1 by congruence.
              right. split; [done|]. intros j Hj'.
              destruct (decide (j = offset)) as [->|Hjo]; [rewrite He; congruence|].
              apply Hj. lia.
      * intros [(Hi & Hg & Hj)|(Hm1 & Hj)].
        -- destruct (decide (i = offset)) as [->|Hio].
           ++ rewrite He in Hg. injection Hg as <-. right.
              rewrite lookup_insert_eq. split; [done|]. intros j Hj'. apply Hj. lia.
           ++ left. split_and!; try done; try lia; intros j Hj'; apply Hj; lia.
        -- right. assert (g <> g0).
           { intros ->. apply (Hj offset); [lia | done]. }
           rewrite lookup_insert_ne by congruence. split; [done|].
           intros j Hj'. apply Hj. lia.
    + rewrite (sbind_ret_step _ _ st st tt) by reflexivity.
      destruct (IH (S offset) st m0) as (m' & Hrun & Hk); [done | lia |].
      exists m'. rewrite Hrun. split; [reflexivity|].
      intros g i. rewrite Hk. split.
      * intros [(Hi & Hg & Hj)|(Hm1 & Hj)].
        -- left. split_and!; try done; try lia; intros j Hj'; apply Hj; lia.
        -- right. split; [done|]. intros j Hj'.
           destruct (decide (j = offset)) as [->|Hjo]; [by rewrite He|].
           apply Hj. lia.
      * intros [(Hi & Hg & Hj)|(Hm1 & Hj)].
        -- destruct (decide (i = offset)) as [->|Hio]; [by rewrite He in Hg|].
           left. split_and!; try done; try lia; intros j Hj'; apply Hj; lia.
        -- right. split; [done|]. intros j Hj'. apply Hj. lia.
Qed.

(** X7: the first-use scan of [$addFunction] keeps the highest index of a
    function that appears several times in the Table: adding it returns
    that index and only creates the map. *)
Lemma addFunction_first_use_highest_index (MEMORY64 : bool) (A : nat) (hw : bool)
  (g : func) (sig : option string) (st : state) (i : nat) :
  functionsInTableMap st = None ->
  wasmTable st !! i = Some (Some g) ->
  (forall j, (i < j)%nat -> wasmTable st !! j <> Some (Some g)) ->
  exists m, addFunction MEMORY64 A hw g sig st = (Ret i, set_map (Some m) st).
Proof.
  intros Hm Hi Hj.
  destruct (updateTableMap_last 0 (length (wasmTable st)) (set_map (Some ∅) st) ∅)
    as (m & Hrun & Hk); [done | cbn; lia |].
  rewrite set_map_set_map in Hrun.
  assert (Hmi : m !! g = Some i).
  { apply Hk. left. cbn [wasmTable set_map].
    pose proof (lookup_lt_Some _ _ _ Hi).
    split_and!; try done; try lia. intros j Hj'. apply Hj. lia. }
  exists m.
  assert (Hinit : initTableMap st = (Ret tt, set_map (Some m) st)).
  { unfold initTableMap. rewrite sbind_sget, Hm.
    by rewrite (sbind_ret_step _ _ st (set_map (Some ∅) st) tt) by reflexivity. }
  apply (addFunction_hit MEMORY64 A hw g sig (set_map (Some m) st) m i) in Hmi; [|done].
  unfold addFunction in Hmi |- *. rewrite (sbind_ret_step _ _ _ _ _ Hinit).
  unfold addFunction in Hmi. rewrite <- Hmi.
  unfold initTableMap. rewrite sbind_sget. cbn [functionsInTableMap set_map].
  unfold sbind, sret. reflexivity.
Qed.

Lemma not_in_insert (f : func) (T : list (option func)) (i : nat) (x : option func) :
  Some f ∉ T -> x <> Some f -> Some f ∉ <[i := x]> T.
Proof.
  intros Hf Hx Hin. apply list_elem_of_lookup in Hin as [j Hj].
  destruct (decide (i = j)) as [->|Hne].
  - destruct (decide (j < length T)%nat) as [Hlt|Hge].
    + rewrite list_lookup_insert_eq in Hj by done. congruence.
    + rewrite list_insert_ge in Hj by lia. apply Hf, list_elem_of_lookup. eauto.
  - rewrite list_lookup_insert_ne in Hj by done. apply Hf, list_elem_of_lookup. eauto.
Qed.

Lemma delete_entry_None (m : gmap func nat) (e : option func) (f : func) :
  m !! f = None -> (match e with Some g => delete g m | None => m end) !! f = None.
Proof. intros Hf. destruct e; [apply lookup_delete_None; by right | done]. Qed.

Lemma placed_not (f v g : func) :
  not_wrapper f -> f <> g -> (v = g \/ exists j, v = Wrapper j) -> Some v <> Some f.
Proof. intros Hw Hne [->|[j ->]] [= Heq]; [congruence | by subst]. Qed.

(** A callable without a slot, added while the free list ends in [k]. *)
Lemma addFunction_pop (MEMORY64 : bool) (A : nat) (hw : bool) (f : func)
  (sig : option string) (st : state) (m : gmap func nat) (l : list nat) (k : nat) :
  functionsInTableMap st = Some m -> m !! f = None -> Some f ∉ wasmTable st ->
  registrable MEMORY64 f sig ->
  freeTableIndexes st = l ++ [k] -> (k < length (wasmTable st))%nat ->
  exists v n, addFunction MEMORY64 A hw f sig st
              = (Ret k, mkState (<[k := Some v]> (wasmTable st)) (tableMaximum st) l
                                (Some (<[f := k]> m)) n) /\
            (v = f \/ exists j, v = Wrapper j).
Proof.
  intros Hm Hf Hin Hreg Hfree Hk.
  apply (addFunction_miss_ok MEMORY64 A hw f sig st (set_free l st) m k); try done;
    first [by apply getEmptyTableSlot_pop | by destruct st].
Qed.

(** X8: removing the same index twice pushes it twice on the free list;
    the next two registrations of new callables then both get that slot and
    the map records both at it. *)
Lemma removeFunction_twice_shares_slot (MEMORY64 : bool) (A : nat) (hw : bool)
  (i : nat) (st : state) (m : gmap func nat) (e : option func)
  (f1 f2 : func) (sig1 sig2 : option string) :
  functionsInTableMap st = Some m -> wasmTable st !! i = Some e ->
  m !! f1 = None -> m !! f2 = None -> f1 <> f2 -> not_wrapper f2 ->
  Some f1 ∉ wasmTable st -> Some f2 ∉ wasmTable st ->
  registrable MEMORY64 f1 sig1 -> registrable MEMORY64 f2 sig2 ->
  exists st1 st2 st3 st4,
    removeFunction i st = (Ret tt, st1) /\
    removeFunction i st1 = (Ret tt, st2) /\
    freeTableIndexes st2 = freeTableIndexes st ++ [i; i] /\
    addFunction MEMORY64 A hw f1 sig1 st2 = (Ret i, st3) /\
    addFunction MEMORY64 A hw f2 sig2 st3 = (Ret i, st4) /\
    (functionsInTableMap st4 ≫= lookup f1) = Some i /\
    (functionsInTableMap st4 ≫= lookup f2) = Some i.
Proof.
  intros Hm He Hf1 Hf2 H12 Hw2 Hin1 Hin2 Hr1 Hr2.
  set (del := fun m0 : gmap func nat => match e with Some g => delete g m0 | None => m0 end).
  pose proof (removeFunction_ok i st m e Hm He) as Hrm1.
  set (st1 := set_free (freeTableIndexes st ++ [i]) (set_map (Some (del m)) st)) in Hrm1.
  pose proof (removeFunction_ok i st1 (del m) e eq_refl He) as Hrm2.
  set (st2 := set_free (freeTableIndexes st1 ++ [i]) (set_map (Some (del (del m))) st1)) in Hrm2.
  assert (Hi : (i < length (wasmTable st))%nat) by (by apply lookup_lt_Some in He).
  destruct (addFunction_pop MEMORY64 A hw f1 sig1 st2 (del (del m))
              (freeTableIndexes st ++ [i]) i)
    as (v1 & n1 & Hadd1 & Hv1); try done.
  { by do 2 apply delete_entry_None. }
  set (st3 := mkState (<[i := Some v1]> (wasmTable st2)) (tableMaximum st2)
                (freeTableIndexes st ++ [i]) (Some (<[f1 := i]> (del (del m)))) n1) in Hadd1.
  destruct (addFunction_pop MEMORY64 A hw f2 sig2 st3 (<[f1 := i]> (del (del m)))
              (freeTableIndexes st) i)
    as (v2 & n2 & Hadd2 & Hv2); [reflexivity | | | done | reflexivity | |].
  { rewrite lookup_insert_ne by congruence. by do 2 apply delete_entry_None. }
  { cbn. apply not_in_insert; [done|]. by apply (placed_not f2 v1 f1). }
  { cbn. by rewrite length_insert. }
  eexists st1, st2, st3, _. split_and!; [done | done | cbn; by rewrite <- app_assoc
    | exact Hadd1 | exact Hadd2 | | ]; cbn.
  - rewrite lookup_insert_ne by congruence. apply lookup_insert_eq.
  - apply lookup_insert_eq.
Qed.

(** X9: freed slots are reused last freed first: after removing [i] then
    [j], the next two registrations get [j] then [i], and the free list is
    back to what it was. *)
Lemma freed_slots_reused_last_first (MEMORY64 : bool) (A : nat) (hw : bool)
  (i j : nat) (st : state) (m : gmap func nat) (ei ej : option func)
  (f1 f2 : func) (sig1 sig2 : option string) :
  functionsInTableMap st = Some m ->
  wasmTable st !! i = Some ei -> wasmTable st !! j = Some ej ->
  m !! f1 = None -> m !! f2 = None -> f1 <> f2 -> not_wrapper f2 ->
  Some f1 ∉ wasmTable st -> Some f2 ∉ wasmTable st ->
  registrable MEMORY64 f1 sig1 -> registrable MEMORY64 f2 sig2 ->
  exists st1 st2 st3 st4,
    removeFunction i st = (Ret tt, st1) /\
    removeFunction j st1 = (Ret tt, st2) /\
    addFunction MEMORY64 A hw f1 sig1 st2 = (Ret j, st3) /\
    addFunction MEMORY64 A hw f2 sig2 st3 = (Ret i, st4) /\
    freeTableIndexes st4 = freeTableIndexes st.
Proof.
  intros Hm Hei Hej Hf1 Hf2 H12 Hw2 Hin1 Hin2 Hr1 Hr2.
  set (del := fun (e : option func) (m0 : gmap func nat) =>
                match e with Some g => delete g m0 | None => m0 end).
  pose proof (removeFunction_ok i st m ei Hm Hei) as Hrm1.
  set (st1 := set_free (freeTableIndexes st ++ [i]) (set_map (Some (del ei m)) st)) in Hrm1.
  pose proof (removeFunction_ok j st1 (del ei m) ej eq_refl Hej) as Hrm2.
  set (st2 := set_free (freeTableIndexes st1 ++ [j]) (set_map (Some (del ej (del ei m))) st1))
    in Hrm2.
  assert (Hj : (j < length (wasmTable st))%nat) by (by apply lookup_lt_Some in Hej).
  assert (Hi : (i < length (wasmTable st))%nat) by (by apply lookup_lt_Some in Hei).
  destruct (addFunction_pop MEMORY64 A hw f1 sig1 st2 (del ej (del ei m))
              (freeTableIndexes st ++ [i]) j)
    as (v1 & n1 & Hadd1 & Hv1); try done.
  { by do 2 apply delete_entry_None. }
  set (st3 := mkState (<[j := Some v1]> (wasmTable st2)) (tableMaximum st2)
                (freeTableIndexes st ++ [i]) (Some (<[f1 := j]> (del ej (del ei m)))) n1) in Hadd1.
  destruct (addFunction_pop MEMORY64 A hw f2 sig2 st3 (<[f1 := j]> (del ej (del ei m)))
              (freeTableIndexes st) i)
    as (v2 & n2 & Hadd2 & Hv2); [reflexivity | | | done | reflexivity | |].
  { rewrite lookup_insert_ne by congruence. by do 2 apply delete_entry_None. }
  { cbn. apply not_in_insert; [done|]. by apply (placed_not f2 v1 f1). }
  { cbn. by rewrite length_insert. }
  eexists st1, st2, st3, _. split_and!; [done | done | exact Hadd1 | exact Hadd2 | reflexivity].
Qed.

Lemma check_step_skip (A : nat) (f : func) (st : state) :
  (A < 2)%nat ->
  (if decide (2 <= A)%nat then check_not_in_table A f else sret tt) st = (Ret tt, st).
Proof. intros HA. rewrite decide_False by lia. reflexivity. Qed.

(** [addFunction_miss_ok] for builds with [ASSERTIONS < 2], where the Table
    is not scanned for [f]. *)
Lemma addFunction_miss_low (MEMORY64 : bool) (A : nat) (hw : bool) (f : func)
  (sig : option string) (st s3 : state) (m : gmap func nat) (k : nat) :
  (A < 2)%nat ->
  functionsInTableMap st = Some m -> m !! f = None ->
  registrable MEMORY64 f sig ->
  getEmptyTableSlot st = (Ret k, s3) -> (k < length (wasmTable s3))%nat ->
  functionsInTableMap s3 = Some m ->
  exists n, addFunction MEMORY64 A hw f sig st
            = (Ret k, mkState (<[k := Some (if is_wasm_function f then f
                                             else Wrapper (wrappersMade s3))]> (wasmTable s3))
                              (tableMaximum s3) (freeTableIndexes s3)
                              (Some (<[f := k]> m)) n).
Proof.
  intros HA Hm Hf Hreg Hg Hk Hm3.
  destruct (initTableMap_total st) as (m' & Hi & Hold & _).
  rewrite (Hold m Hm), <- Hm, set_map_same in Hi.
  unfold addFunction. rewrite (sbind_ret_step _ _ _ _ _ Hi), sbind_sget, Hm.
  change (Some m ≫= lookup f) with (m !! f). rewrite Hf.
  rewrite (sbind_ret_step _ _ _ _ _ (check_step_skip _ _ st HA)).
  rewrite (sbind_ret_step _ _ _ _ _ Hg).
  destruct (placeFunction_ok MEMORY64 A hw k f sig s3 Hk Hreg) as (v & n & Hp & _).
  pose proof (placeFunction_ret_exact _ _ _ _ _ _ _ _ _ Hp) as [_ Hex].
  rewrite (sbind_ret_step _ _ _ _ _ Hp), Hex.
  unfold sbind, map_set. destruct s3; cbn in *. rewrite Hm3. eexists. reflexivity.
Qed.

(** X10: removing the slot of a wasm function leaves the function in the
    Table.  With [ASSERTIONS >= 2] adding it again fails the Table scan;
    below that it gets the freed slot back and the Table and free list are
    as before the removal. *)
Lemma addFunction_after_remove_wasm (MEMORY64 : bool) (A : nat) (hw : bool)
  (g : func) (sig : option string) (st : state) (m : gmap func nat) (i : nat) :
  functionsInTableMap st = Some m -> is_wasm_function g = true ->
  wasmTable st !! i = Some (Some g) ->
  exists st1, removeFunction i st = (Ret tt, st1) /\
    ((2 <= A)%nat -> addFunction MEMORY64 A hw g sig st1
       = (Throw (AssertionError "function in Table but not functionsInTableMap"), st1)) /\
    ((A < 2)%nat -> exists st2, addFunction MEMORY64 A hw g sig st1 = (Ret i, st2) /\
       wasmTable st2 = wasmTable st /\ freeTableIndexes st2 = freeTableIndexes st /\
       (functionsInTableMap st2 ≫= lookup g) = Some i).
Proof.
  intros Hm Hw Hg.
  pose proof (removeFunction_ok i st m (Some g) Hm Hg) as Hrm. cbn in Hrm.
  eexists. split; [exact Hrm|].
  set (st1 := set_free (freeTableIndexes st ++ [i]) (set_map (Some (delete g m)) st)).
  assert (Hgone : delete g m !! g = None) by apply lookup_delete_eq.
  assert (Hinit : initTableMap st1 = (Ret tt, st1)).
  { unfold initTableMap. rewrite sbind_sget. reflexivity. }
  split.
  - intros HA. unfold addFunction. rewrite (sbind_ret_step _ _ _ _ _ Hinit), sbind_sget.
    cbn [st1 functionsInTableMap set_free set_map].
    change (Some (delete g m) ≫= lookup g) with (delete g m !! g). rewrite Hgone.
    rewrite decide_True by done.
    apply (sbind_throw_step _ _ st1 st1).
    unfold check_not_in_table. rewrite sbind_sget. unfold slift.
    replace (existsb (fun e => bool_decide (e = Some g)) (wasmTable st1)) with true.
    + unfold js_assert. destruct A as [|A']; [lia|]. reflexivity.
    + symmetry. apply existsb_exists. exists (Some g). split.
      * apply list_elem_of_In, list_elem_of_lookup. eexists. exact Hg.
      * by apply bool_decide_eq_true.
  - intros HA.
    assert (Hi : (i < length (wasmTable st))%nat) by (by apply lookup_lt_Some in Hg).
    destruct (addFunction_miss_low MEMORY64 A hw g sig st1 (set_free (freeTableIndexes st) st1)
                (delete g m) i) as (n & Hadd);
      [done | reflexivity | exact Hgone | by left | by apply getEmptyTableSlot_pop
      | done | reflexivity |].
    eexists. split; [exact Hadd|]. cbn. rewrite Hw.
    split_and!; [by apply list_insert_id | reflexivity | apply lookup_insert_eq].
Qed.

Lemma keeps_slots_bind {A B} (m : M A) (k : A -> M B) :
  keeps_slots m -> (forall a, keeps_slots (k a)) -> keeps_slots (sbind m k).
Proof.
  intros Hm Hk st o st'. unfold sbind.
  destruct (m st) as [[a|e] s1] eqn:E; intros H.
  - destruct (Hk a s1 o st' H) as (? & ? & ?), (Hm _ _ _ E) as (? & ? & ?).
    split_and!; congruence.
  - inversion H; subst. exact (Hm _ _ _ E).
Qed.

Lemma keeps_slots_sret {A} (a : A) : keeps_slots (sret a).
Proof. intros st o st' H. by inversion H. Qed.

Lemma keeps_slots_sthrow {A} (e : js_error) : keeps_slots (@sthrow A e).
Proof. intros st o st' H. by inversion H. Qed.

Lemma keeps_slots_slift {A} (o : outcome A) : keeps_slots (slift o).
Proof. intros st o' st' H. by inversion H. Qed.

Lemma keeps_slots_new_wrapper : keeps_slots new_wrapper.
Proof. intros st o st' H. by inversion H. Qed.

Create HintDb slots_frame.
#[local] Hint Resolve keeps_slots_bind keeps_slots_sret keeps_slots_sthrow keeps_slots_slift
  keeps_slots_new_wrapper : slots_frame.

Lemma keeps_slots_convert (MEMORY64 : bool) (A : nat) (hw : bool) (f : func)
  (sig : option string) : keeps_slots (convertJsFunctionToWasm MEMORY64 A hw f sig).
Proof.
  unfold convertJsFunctionToWasm, host_new_function, host_instantiate.
  destruct sig as [s|]; [|auto with slots_frame].
  destruct hw; apply keeps_slots_bind; auto with slots_frame;
    intros a; case_match; auto with slots_frame.
Qed.

Lemma keeps_slots_check (A : nat) (f : func) :
  keeps_slots (if decide (2 <= A)%nat then check_not_in_table A f else sret tt).
Proof.
  case_decide; [|auto with slots_frame].
  unfold check_not_in_table. apply keeps_slots_bind; [|auto with slots_frame].
  intros st o st' Hs. by inversion Hs.
Qed.

Lemma placeFunction_throw (MEMORY64 : bool) (A : nat) (hw : bool) (r : nat) (f : func)
  (sig : option string) (st st' : state) (e : js_error) :
  placeFunction MEMORY64 A hw r f sig st = (Throw e, st') ->
  wasmTable st' = wasmTable st /\ freeTableIndexes st' = freeTableIndexes st /\
  functionsInTableMap st' = functionsInTableMap st.
Proof.
  unfold placeFunction, scatch.
  destruct (setWasmTableEntry r f st) as [[u|e0] s1] eqn:E; [discriminate|].
  apply setWasmTableEntry_throw in E as ->.
  destruct e0; try (intros H; by inversion H).
  unfold sbind at 1, slift. destruct (js_assert _ _ _); [|intros H; by inversion H].
  unfold sbind.
  destruct (convertJsFunctionToWasm MEMORY64 A hw f sig st) as [[w|e1] s2] eqn:Ec.
  - apply keeps_slots_convert in Ec as (Ht & Hf & Hm).
    intros Hs. apply setWasmTableEntry_throw in Hs as ->. by split_and!.
  - intros Hs. inversion Hs; subst. by apply keeps_slots_convert in Ec.
Qed.

Lemma getEmptyTableSlot_throw (st st' : state) (e : js_error) :
  getEmptyTableSlot st = (Throw e, st') -> st' = st.
Proof.
  unfold getEmptyTableSlot. rewrite sbind_sget.
  destruct (last (freeTableIndexes st)); intros H.
  - unfold sbind, smodify, sret in H. by inversion H.
  - unfold sbind at 1, scatch, wasmTable_grow1 in H.
    destruct (tableMaximum st) as [mx|]; [case_decide|];
      unfold sbind, sget, sret, sthrow in H; inversion H; reflexivity.
Qed.

Lemma sbind_cases {A B} (m : M A) (k : A -> M B) (st st' : state) (o : outcome B) :
  sbind m k st = (o, st') ->
  (exists a s1, m st = (Ret a, s1) /\ k a s1 = (o, st')) \/
  (exists e, m st = (Throw e, st') /\ o = Throw e).
Proof.
  unfold sbind. destruct (m st) as [[a|e] s1]; intros H; [left; eauto | right].
  inversion H; subst. eauto.
Qed.

Lemma slots_in_bounds_frame (st st' : state) :
  wasmTable st' = wasmTable st -> freeTableIndexes st' = freeTableIndexes st ->
  functionsInTableMap st' = functionsInTableMap st ->
  slots_in_bounds st -> slots_in_bounds st'.
Proof. unfold slots_in_bounds. intros -> -> ->. done. Qed.

(** The map [initTableMap] leaves keeps every recorded slot inside the Table. *)
Lemma initTableMap_bounded (st : state) :
  slots_in_bounds st ->
  exists m, initTableMap st = (Ret tt, set_map (Some m) st) /\
    slots_in_bounds (set_map (Some m) st).
Proof.
  intros [Hfree Hmap].
  destruct (functionsInTableMap st) as [m0|] eqn:Hm.
  - exists m0. split.
    + unfold initTableMap. rewrite sbind_sget, Hm. unfold sret. by rewrite <- Hm, set_map_same.
    + split; [done|]. cbn. intros m [= <-]. by apply Hmap.
  - destruct (updateTableMap_last 0 (length (wasmTable st)) (set_map (Some ∅) st) ∅)
      as (m & Hrun & Hk); [done | cbn; lia |].
    rewrite set_map_set_map in Hrun. exists m. split.
    + unfold initTableMap. rewrite sbind_sget, Hm.
      by rewrite (sbind_ret_step _ _ st (set_map (Some ∅) st) tt) by reflexivity.
    + split; [done|]. cbn. intros m' [= <-] g i Hgi.
      apply Hk in Hgi as [(Hi & _)|(Hx & _)]; [cbn in Hi; lia | by rewrite lookup_empty in Hx].
Qed.

(** X11: [$addFunction] keeps every free index and every slot in the map
    inside the Table, whatever its outcome; a returned slot is inside the
    Table, and the Table never shrinks. *)
Theorem addFunction_keeps_slots_in_bounds (MEMORY64 : bool) (A : nat) (hw : bool)
  (f : func) (sig : option string) (st st' : state) (o : outcome nat) :
  slots_in_bounds st ->
  addFunction MEMORY64 A hw f sig st = (o, st') ->
  slots_in_bounds st' /\
  (forall r, o = Ret r -> (r < length (wasmTable st'))%nat) /\
  (length (wasmTable st) <= length (wasmTable st'))%nat.
Proof.
  intros Hinv H.
  destruct (initTableMap_bounded st Hinv) as (m & Hi & Hinv1).
  set (s1 := set_map (Some m) st) in *.
  unfold addFunction in H. rewrite (sbind_ret_step _ _ _ _ _ Hi), sbind_sget in H.
  cbn [s1 functionsInTableMap set_map] in H. change (Some m ≫= lookup f) with (m !! f) in H.
  destruct (m !! f) as [r|] eqn:Ef.
  - inversion H; subst. split_and!; [done | | done].
    intros r' [= <-]. by apply (proj2 Hinv1 m eq_refl f).
  - apply sbind_cases in H as [(u & s2 & Hc & H)|(e & Hc & ->)].
    2:{ apply keeps_slots_check in Hc as (Ht2 & Hf2 & Hm2).
        refine (conj _ (conj _ _)); [by apply (slots_in_bounds_frame s1) | done | rewrite Ht2; subst s1; cbn; lia]. }
    apply keeps_slots_check in Hc as (Ht2 & Hf2 & Hm2).
    apply (slots_in_bounds_frame s1 s2) in Hinv1 as Hinv2; [|done..].
    apply sbind_cases in H as [(k & s3 & Hg & H)|(e & Hg & ->)].
    2:{ apply getEmptyTableSlot_throw in Hg as ->.
        refine (conj _ (conj _ _)); [done | done | rewrite Ht2; subst s1; cbn; lia]. }
    pose proof (getEmptyTableSlot_set_map _ _ _ Hg) as Hm3.
    assert (Hinv3 : slots_in_bounds s3 /\ (k < length (wasmTable s3))%nat /\
                    (length (wasmTable s2) <= length (wasmTable s3))%nat).
    { destruct Hinv2 as [Hfr Hmp].
      apply getEmptyTableSlot_cases in Hg as [(l & Hl & ->)|(Hl & -> & ->)].
      - rewrite Hl in Hfr. apply Forall_app in Hfr as [Hfr Hk]. inversion Hk as [|? ? Hk' _]; subst.
        refine (conj (conj _ _) (conj _ _)); cbn; [done | exact Hmp | exact Hk' | lia].
      - refine (conj (conj _ _) (conj _ _)); cbn; rewrite ?length_app; cbn.
        + by rewrite Hl.
        + intros m' Hm' g i Hgi. specialize (Hmp m' Hm' g i Hgi). lia.
        + lia.
        + lia. }
    destruct Hinv3 as (Hinv3 & Hk & Hlen3).
    apply sbind_cases in H as [(u' & s4 & Hp & H)|(e & Hp & ->)].
    2:{ apply placeFunction_throw in Hp as (Ht4 & Hf4 & Hm4).
        refine (conj _ (conj _ _)); [by apply (slots_in_bounds_frame s3) | done | ].
        rewrite Ht4. rewrite Ht2 in Hlen3. subst s1. cbn in Hlen3. lia. }
    apply placeFunction_ret_exact in Hp as [_ ->].
    unfold sbind, map_set in H. cbn in H. rewrite Hm3, Hm2 in H. cbn in H.
    inversion H; subst. clear H.
    destruct Hinv3 as [Hfr Hmp].
    refine (conj (conj _ _) (conj _ _)); cbn; rewrite ?length_insert.
    + done.
    + intros m' [= <-] g i Hgi.
      destruct (decide (g = f)) as [->|Hne].
      * rewrite lookup_insert_eq in Hgi. by injection Hgi as <-.
      * rewrite lookup_insert_ne in Hgi by congruence.
        refine (Hmp m _ g i Hgi). by rewrite Hm3, Hm2.
    + by intros r [= <-].
    + rewrite Ht2 in Hlen3. cbn in Hlen3. lia.
Qed.

(** X12: [$removeFunction] keeps every free index and every slot in the
    map inside the Table, whatever its outcome, and never changes the
    Table. *)
Theorem removeFunction_keeps_slots_in_bounds (index : nat) (st st' : state) (o : outcome unit) :
  slots_in_bounds st ->
  removeFunction index st = (o, st') ->
  slots_in_bounds st' /\ wasmTable st' = wasmTable st.
Proof.
  intros Hinv H. pose proof Hinv as [Hfr Hmp].
  destruct (functionsInTableMap st) as [m|] eqn:Hm.
  2:{ unfold removeFunction in H. rewrite sbind_sget, Hm in H. inversion H; subst. by split. }
  destruct (wasmTable st !! index) as [e|] eqn:He.
  - rewrite (removeFunction_ok index st m e Hm He) in H. inversion H; subst. clear H.
    refine (conj (conj _ _) eq_refl); cbn.
    + apply Forall_app. split; [done|]. constructor; [|done].
      by apply lookup_lt_Some in He.
    + intros m' [= <-] g i Hgi. apply (Hmp m eq_refl g i).
      destruct e as [g0|]; [|done]. by apply lookup_delete_Some in Hgi as [_ ?].
  - unfold removeFunction in H. rewrite sbind_sget, Hm in H.
    unfold sbind, getWasmTableEntry in H. rewrite He in H. inversion H; subst.
    by split.
Qed.

Lemma two_wasm_state_bounded : slots_in_bounds two_wasm_state.
Proof.
  split; [constructor|]. cbn. intros m [= <-] g i Hgi.
  apply lookup_insert_Some in Hgi as [(_ & <-)|(_ & Hgi)]; [lia|].
  apply lookup_singleton_Some in Hgi as [_ <-]. lia.
Qed.

Lemma uleb128Encode_decode_witness :
  exists bs, uleb128Encode 1 300 [Some 7] = Ret ([Some 7] ++ map Some bs) /\
    Forall (fun z => 0 <= z < 256) bs /\
    uleb128_decode (bs ++ [5]) = Some (300, [5]).
Proof. apply (uleb128Encode_decode 1 300 [Some 7] [5]). lia. Defined.

Lemma uleb128Encode_out_of_range_witness :
  uleb128Encode 1 16384 [] = Throw (AssertionError "") /\
  exists b0 b1, uleb128Encode 0 16384 [] = Ret ([] ++ [Some b0; Some b1]) /\
    forall rest, uleb128_decode (to_uint8 [Some b0; Some b1] ++ rest) <> Some (16384, rest).
Proof.
  destruct (uleb128Encode_out_of_range 1 16384 []) as [H1 H2]; [lia|].
  split; [apply H1; discriminate | exact H2].
Defined.

Lemma convert_rejects_alike_witness :
  exists e, sigToWasmTypes false 1 "vx" = Throw e /\
    convertJsFunctionToWasm false 1 true (JsFunc 0) (Some "vx") initial_state
      = (Throw e, initial_state) /\
    convertJsFunctionToWasm false 1 false (JsFunc 0) (Some "vx") initial_state
      = (Throw e, initial_state).
Proof.
  exists (AssertionError "invalid signature char: x"). split; [vm_compute; reflexivity|].
  apply (convert_rejects_alike false 1 (JsFunc 0) "v" "x"); [cbn; lia | vm_compute; reflexivity].
Defined.

Lemma removeFunction_errors_witness :
  removeFunction 0 initial_state = (Throw TypeError, initial_state) /\
  removeFunction 2 two_wasm_state = (Throw RangeError, two_wasm_state).
Proof.
  split.
  - apply (proj1 (removeFunction_errors 0 initial_state)). reflexivity.
  - apply (proj2 (removeFunction_errors 2 two_wasm_state)); [eexists; reflexivity | cbn; lia].
Defined.

Lemma addFunction_new_slot_witness :
  (0 < length (wasmTable st_js_added))%nat /\
  (functionsInTableMap st_js_added ≫= lookup (JsFunc 0)) = Some 0%nat /\
  wasmTable st_js_added !! 0%nat
    = Some (Some (if is_wasm_function (JsFunc 0) then JsFunc 0 else Wrapper (wrappersMade initial_state))) /\
  wrappersMade st_js_added
    = (if is_wasm_function (JsFunc 0) then wrappersMade initial_state else S (wrappersMade initial_state)).
Proof.
  apply (addFunction_new_slot false 1 false (JsFunc 0) (Some "v") initial_state st_js_added 0).
  - cbn. apply not_elem_of_nil.
  - vm_compute. reflexivity.
Defined.


Lemma addFunction_first_use_highest_index_witness :
  exists m, addFunction false 1 false (WasmFunc 1) None
              (mkState [Some (WasmFunc 1); Some (WasmFunc 1); None] None [] None 0)
            = (Ret 1%nat, set_map (Some m)
                 (mkState [Some (WasmFunc 1); Some (WasmFunc 1); None] None [] None 0)).
Proof.
  apply (addFunction_first_use_highest_index false 1 false (WasmFunc 1) None _ 1).
  - reflexivity.
  - reflexivity.
  - intros j Hj. destruct j as [|[|[|j]]]; cbn; try lia; discriminate.
Defined.

Lemma removeFunction_twice_shares_slot_witness :
  exists st1 st2 st3 st4,
    removeFunction 0 two_wasm_state = (Ret tt, st1) /\
    removeFunction 0 st1 = (Ret tt, st2) /\
    freeTableIndexes st2 = freeTableIndexes two_wasm_state ++ [0%nat; 0%nat] /\
    addFunction false 1 false (JsFunc 3) (Some "v") st2 = (Ret 0%nat, st3) /\
    addFunction false 1 false (WasmFunc 7) None st3 = (Ret 0%nat, st4) /\
    (functionsInTableMap st4 ≫= lookup (JsFunc 3)) = Some 0%nat /\
    (functionsInTableMap st4 ≫= lookup (WasmFunc 7)) = Some 0%nat.
Proof.
  apply (removeFunction_twice_shares_slot false 1 false 0 two_wasm_state
           {[WasmFunc 1 := 0%nat; WasmFunc 2 := 1%nat]} (Some (WasmFunc 1))
           (JsFunc 3) (WasmFunc 7) (Some "v") None);
    try reflexivity; try discriminate; try exact I.
  - apply (bool_decide_unpack _). vm_compute. exact I.
  - apply (bool_decide_unpack _). vm_compute. exact I.
  - right. exists "v". split_and!; [reflexivity | vm_compute; reflexivity | cbn; lia].
  - left. reflexivity.
Defined.

Lemma freed_slots_reused_last_first_witness :
  exists st1 st2 st3 st4,
    removeFunction 0 two_wasm_state = (Ret tt, st1) /\
    removeFunction 1 st1 = (Ret tt, st2) /\
    addFunction false 1 false (JsFunc 3) (Some "v") st2 = (Ret 1%nat, st3) /\
    addFunction false 1 false (WasmFunc 7) None st3 = (Ret 0%nat, st4) /\
    freeTableIndexes st4 = freeTableIndexes two_wasm_state.
Proof.
  apply (freed_slots_reused_last_first false 1 false 0 1 two_wasm_state
           {[WasmFunc 1 := 0%nat; WasmFunc 2 := 1%nat]} (Some (WasmFunc 1)) (Some (WasmFunc 2))
           (JsFunc 3) (WasmFunc 7) (Some "v") None);
    try reflexivity; try discriminate; try exact I.
  - apply (bool_decide_unpack _). vm_compute. exact I.
  - apply (bool_decide_unpack _). vm_compute. exact I.
  - right. exists "v". split_and!; [reflexivity | vm_compute; reflexivity | cbn; lia].
  - left. reflexivity.
Defined.

Lemma addFunction_after_remove_wasm_witness :
  (exists st1, removeFunction 0 two_wasm_state = (Ret tt, st1) /\
     addFunction false 2 false (WasmFunc 1) None st1
     = (Throw (AssertionError "function in Table but not functionsInTableMap"), st1)) /\
  (exists st1 st2, removeFunction 0 two_wasm_state = (Ret tt, st1) /\
     addFunction false 1 false (WasmFunc 1) None st1 = (Ret 0%nat, st2) /\
     wasmTable st2 = wasmTable two_wasm_state /\
     freeTableIndexes st2 = freeTableIndexes two_wasm_state /\
     (functionsInTableMap st2 ≫= lookup (WasmFunc 1)) = Some 0%nat).
Proof.
  split.
  - destruct (addFunction_after_remove_wasm false 2 false (WasmFunc 1) None two_wasm_state
                {[WasmFunc 1 := 0%nat; WasmFunc 2 := 1%nat]} 0) as (st1 & H1 & H2 & _);
      [reflexivity..|].
    exists st1. split; [exact H1 | apply H2; lia].
  - destruct (addFunction_after_remove_wasm false 1 false (WasmFunc 1) None two_wasm_state
                {[WasmFunc 1 := 0%nat; WasmFunc 2 := 1%nat]} 0) as (st1 & H1 & _ & H3);
      [reflexivity..|].
    destruct H3 as (st2 & H3); [lia|]. exists st1, st2. split; [exact H1 | exact H3].
Defined.

Lemma addFunction_keeps_slots_in_bounds_witness :
  slots_in_bounds (snd (addFunction false 1 false (JsFunc 0) (Some "v") two_wasm_state)) /\
  (forall r, fst (addFunction false 1 false (JsFunc 0) (Some "v") two_wasm_state) = Ret r ->
     (r < length (wasmTable (snd (addFunction false 1 false (JsFunc 0) (Some "v") two_wasm_state))))%nat) /\
  (length (wasmTable two_wasm_state)
     <= length (wasmTable (snd (addFunction false 1 false (JsFunc 0) (Some "v") two_wasm_state))))%nat.
Proof.
  apply (addFunction_keeps_slots_in_bounds false 1 false (JsFunc 0) (Some "v") two_wasm_state).
  - exact two_wasm_state_bounded.
  - apply surjective_pairing.
Defined.

Lemma removeFunction_keeps_slots_in_bounds_witness :
  slots_in_bounds (snd (removeFunction 1 two_wasm_state)) /\
  wasmTable (snd (removeFunction 1 two_wasm_state)) = wasmTable two_wasm_state.
Proof.
  apply (removeFunction_keeps_slots_in_bounds 1 two_wasm_state _ (fst (removeFunction 1 two_wasm_state))).
  - exact two_wasm_state_bounded.
  - apply surjective_pairing.
Defined.
